(** * Topology references: finalizer lifecycle, default-filling and hashing

    A shallow embedding of [modules/common/topology/topology.go]
    ([EnsureTopologyRef] and [EnsureDeletedTopologyRef]) together with the
    collaborators the two functions call: the API server reached through the
    controller-runtime client, the finalizer helpers of [controllerutil], the
    generated [DeepCopy] and [util.ObjectHash]. *)

From stdpp Require Import gmap strings list fin_maps.
From Stdlib Require Import ZArith.

(** ** Go values *)

(** A Go slice is either [nil] or a (possibly empty) sequence; [len] is [0]
    for both [nil] and the empty slice. *)
Definition slice (A : Type) : Type := option (list A).

Definition len {A : Type} (s : slice A) : nat :=
  match s with
  | None => 0
  | Some l => length l
  end.

(** ** Kubernetes API types (the fields of [metav1] and [corev1] used here) *)

Record LabelSelectorRequirement := {
  lsr_Key : string;
  lsr_Operator : string;
  lsr_Values : list string
}.

Record LabelSelector := {
  MatchLabels : list (string * string);
  MatchExpressions : list LabelSelectorRequirement
}.

Record TopologySpreadConstraint := {
  tsc_MaxSkew : Z;
  tsc_TopologyKey : string;
  tsc_WhenUnsatisfiable : string;
  tsc_LabelSelector : option LabelSelector;
  tsc_MinDomains : option Z;
  tsc_NodeAffinityPolicy : option string;
  tsc_NodeTaintsPolicy : option string;
  tsc_MatchLabelKeys : slice string
}.

Record PodAffinityTerm := {
  pat_LabelSelector : option LabelSelector;
  pat_Namespaces : slice string;
  pat_TopologyKey : string;
  pat_NamespaceSelector : option LabelSelector;
  pat_MatchLabelKeys : slice string;
  pat_MismatchLabelKeys : slice string
}.

Record WeightedPodAffinityTerm := {
  Weight : Z;
  PodAffinityTerm_of : PodAffinityTerm
}.

Record PodAffinity := {
  pa_RequiredDuringSchedulingIgnoredDuringExecution : slice PodAffinityTerm;
  pa_PreferredDuringSchedulingIgnoredDuringExecution : slice WeightedPodAffinityTerm
}.

Record PodAntiAffinity := {
  paa_RequiredDuringSchedulingIgnoredDuringExecution : slice PodAffinityTerm;
  paa_PreferredDuringSchedulingIgnoredDuringExecution : slice WeightedPodAffinityTerm
}.

(** Node affinity is carried along and never inspected by this package. *)
Inductive NodeAffinity := NodeAffinityData (raw : string).

Record Affinity := {
  aff_NodeAffinity : option NodeAffinity;
  aff_PodAffinity : option PodAffinity;
  aff_PodAntiAffinity : option PodAntiAffinity
}.

(** [topologyv1.TopologySpec]: a pointer to the slice of spread constraints
    and a pointer to the affinity. *)
Record TopologySpec := {
  TopologySpreadConstraints : option (slice TopologySpreadConstraint);
  Affinity_of : option Affinity
}.

(** [topologyv1.Topology]: the metadata this package reads and the spec. *)
Record Topology := {
  Name : string;
  Namespace : string;
  Finalizers : list string;
  Spec : TopologySpec
}.

(** Modelled from the spec: the reference type [Topology] of this package
    is declared outside the two source files.  The spec's Reference
    "identifies a target object by name and namespace (both required;
    empty-string sentinel means not set)". *)
Record TopologyRef := {
  ref_Name : string;
  ref_Namespace : string
}.

(** Standard MatchLabelKeys labels for Deployments/Statefulsets. *)
Definition StatefulsetMatchLabelKey : string := "controller-revision-hash".
Definition DeploymentMatchLabelKey : string := "pod-template-hash".

(** ** Default-filling (lines 78-142 of [EnsureTopologyRef]) *)

(** The loops of the source walk a slice by index and update the element in
    place through [current := &s[i]].  [for_index body fuel i l] runs the
    loop from index [i] for at most [fuel] iterations, stopping when
    [i < len(l)] fails. *)
Fixpoint for_index {A : Type} (body : A -> A) (fuel i : nat) (l : list A) : list A :=
  match fuel with
  | O => l
  | S k =>
      if decide (i < length l)
      then for_index body k (S i) (alter body i l)
      else l
  end.

(** [for i := range s { ... }]: nothing to do on a [nil] slice. *)
Definition for_range {A : Type} (body : A -> A) (s : slice A) : slice A :=
  match s with
  | None => None
  | Some l => Some (for_index body (length l) 0 l)
  end.

Section Defaults.

Variable defaultLabelSelector : LabelSelector.
Variable defaultMatchLabelKeys : slice string.

(** Body of the loop over the spread constraints (lines 81-87). *)
Definition defaultConstraint (current : TopologySpreadConstraint) : TopologySpreadConstraint :=
  let current :=
    match tsc_LabelSelector current with
    | None =>
        {| tsc_MaxSkew := tsc_MaxSkew current;
           tsc_TopologyKey := tsc_TopologyKey current;
           tsc_WhenUnsatisfiable := tsc_WhenUnsatisfiable current;
           tsc_LabelSelector := Some defaultLabelSelector;
           tsc_MinDomains := tsc_MinDomains current;
           tsc_NodeAffinityPolicy := tsc_NodeAffinityPolicy current;
           tsc_NodeTaintsPolicy := tsc_NodeTaintsPolicy current;
           tsc_MatchLabelKeys := tsc_MatchLabelKeys current |}
    | Some _ => current
    end in
  if decide (len (tsc_MatchLabelKeys current) = 0)
  then {| tsc_MaxSkew := tsc_MaxSkew current;
          tsc_TopologyKey := tsc_TopologyKey current;
          tsc_WhenUnsatisfiable := tsc_WhenUnsatisfiable current;
          tsc_LabelSelector := tsc_LabelSelector current;
          tsc_MinDomains := tsc_MinDomains current;
          tsc_NodeAffinityPolicy := tsc_NodeAffinityPolicy current;
          tsc_NodeTaintsPolicy := tsc_NodeTaintsPolicy current;
          tsc_MatchLabelKeys := defaultMatchLabelKeys |}
  else current.

(** Body of the four loops over affinity terms (lines 95-103, 106-114,
    120-128, 131-139). *)
Definition defaultTerm (current : PodAffinityTerm) : PodAffinityTerm :=
  let current :=
    match pat_LabelSelector current with
    | None =>
        {| pat_LabelSelector := Some defaultLabelSelector;
           pat_Namespaces := pat_Namespaces current;
           pat_TopologyKey := pat_TopologyKey current;
           pat_NamespaceSelector := pat_NamespaceSelector current;
           pat_MatchLabelKeys := pat_MatchLabelKeys current;
           pat_MismatchLabelKeys := pat_MismatchLabelKeys current |}
    | Some _ => current
    end in
  if decide (len (pat_MatchLabelKeys current) = 0)
  then {| pat_LabelSelector := pat_LabelSelector current;
          pat_Namespaces := pat_Namespaces current;
          pat_TopologyKey := pat_TopologyKey current;
          pat_NamespaceSelector := pat_NamespaceSelector current;
          pat_MatchLabelKeys := defaultMatchLabelKeys;
          pat_MismatchLabelKeys := pat_MismatchLabelKeys current |}
  else current.

(** The preferred loops take [current := &s[i].PodAffinityTerm]. *)
Definition defaultWeighted (w : WeightedPodAffinityTerm) : WeightedPodAffinityTerm :=
  {| Weight := Weight w;
     PodAffinityTerm_of := defaultTerm (PodAffinityTerm_of w) |}.

Definition defaultPodAffinity (podAffinity : PodAffinity) : PodAffinity :=
  let required :=
    for_range defaultTerm
      (pa_RequiredDuringSchedulingIgnoredDuringExecution podAffinity) in
  let preferred :=
    for_range defaultWeighted
      (pa_PreferredDuringSchedulingIgnoredDuringExecution podAffinity) in
  {| pa_RequiredDuringSchedulingIgnoredDuringExecution := required;
     pa_PreferredDuringSchedulingIgnoredDuringExecution := preferred |}.

Definition defaultPodAntiAffinity (podAntiAffinity : PodAntiAffinity) : PodAntiAffinity :=
  let required :=
    for_range defaultTerm
      (paa_RequiredDuringSchedulingIgnoredDuringExecution podAntiAffinity) in
  let preferred :=
    for_range defaultWeighted
      (paa_PreferredDuringSchedulingIgnoredDuringExecution podAntiAffinity) in
  {| paa_RequiredDuringSchedulingIgnoredDuringExecution := required;
     paa_PreferredDuringSchedulingIgnoredDuringExecution := preferred |}.

Definition defaultAffinity (affinity : Affinity) : Affinity :=
  {| aff_NodeAffinity := aff_NodeAffinity affinity;
     aff_PodAffinity :=
       match aff_PodAffinity affinity with
       | None => None
       | Some podAffinity => Some (defaultPodAffinity podAffinity)
       end;
     aff_PodAntiAffinity :=
       match aff_PodAntiAffinity affinity with
       | None => None
       | Some podAntiAffinity => Some (defaultPodAntiAffinity podAntiAffinity)
       end |}.

(** Lines 78-142 as a function of the copy's spec. *)
Definition applyDefaults (spec : TopologySpec) : TopologySpec :=
  {| TopologySpreadConstraints :=
       match TopologySpreadConstraints spec with
       | None => None
       | Some topologyConstraints =>
           Some (for_range defaultConstraint topologyConstraints)
       end;
     Affinity_of :=
       match Affinity_of spec with
       | None => None
       | Some affinity => Some (defaultAffinity affinity)
       end |}.

End Defaults.

(** ** Errors and results *)

(** A Go [error] value: either a status error of the API machinery, which
    carries a reason, or a plain error built with [fmt.Errorf]. *)
Inductive error :=
| StatusError (reason : string) (message : string)
| Errorf (message : string).

Definition StatusReasonNotFound : string := "NotFound".
Definition StatusReasonConflict : string := "Conflict".

(** [k8s_errors.IsNotFound]; it is [false] on the [nil] error. *)
Definition IsNotFound (err : option error) : bool :=
  match err with
  | Some (StatusError reason _) => bool_decide (reason = StatusReasonNotFound)
  | _ => false
  end.

Arguments IsNotFound : simpl never.

(** [ctrl.Result]; [ctrl.Result{}] is its zero value. *)
Record Result := {
  Requeue : bool;
  RequeueAfter : Z
}.

Definition Result_zero : Result := {| Requeue := false; RequeueAfter := 0 |}.

(** ** The world the two functions run in *)

(** What the API server keeps for a Topology under its namespaced name. *)
Record Stored := {
  st_Finalizers : list string;
  st_Spec : TopologySpec
}.

Definition to_object (namespace name : string) (s : Stored) : Topology :=
  {| Name := name; Namespace := namespace;
     Finalizers := st_Finalizers s; Spec := st_Spec s |}.

Definition to_stored (t : Topology) : Stored :=
  {| st_Finalizers := Finalizers t; st_Spec := Spec t |}.

(** [&Topology{}] *)
Definition Topology_zero : Topology :=
  {| Name := ""; Namespace := ""; Finalizers := [];
     Spec := {| TopologySpreadConstraints := None; Affinity_of := None |} |}.

(** Calls made on collaborators, in the order they happen. *)
Inductive Event :=
| EvGet (namespace name : string)
| EvUpdate (obj : Topology)
| EvDeepCopy (obj : Topology)
| EvHash (spec : TopologySpec)
| EvLog (message : string) (obj : Topology).

(** Addresses of the objects the operator holds in memory. *)
Definition loc := nat.

(** - [objects]: the API server's store, keyed by (namespace, name);
    - [faults]: what the environment does to the coming store calls, one
      entry per call: [Some e] makes the call fail with [e] (conflict,
      timeout, cancelled context, object deleted meanwhile, ...), [None] and
      the exhausted script let it through;
    - [heap]: the objects in the operator's memory, by address;
    - [trace]: the calls made so far, oldest first. *)
Record World := {
  objects : gmap (string * string) Stored;
  faults : list (option error);
  heap : list Topology;
  trace : list Event
}.

(** A computation reads and changes the world; [None] is a Go panic (a
    dereference of an address that holds no object). *)
Definition M (A : Type) : Type := World -> option (A * World).

Definition ret {A : Type} (a : A) : M A := fun w => Some (a, w).

Definition bind {A B : Type} (c : M A) (k : A -> M B) : M B :=
  fun w =>
    match c w with
    | None => None
    | Some (a, w') => k a w'
    end.

Notation "x <- c ; k" := (bind c (fun x => k))
  (at level 20, c at level 100, k at level 200, only parsing).
Notation "' pat <- c ; k" := (bind c (fun x => match x with pat => k end))
  (at level 20, pat pattern, c at level 100, k at level 200, only parsing).

Definition log (ev : Event) : M unit :=
  fun w => Some (tt, {| objects := objects w; faults := faults w;
                        heap := heap w; trace := trace w ++ [ev] |}).

(** The environment's verdict on the [n]-th coming store call. *)
Definition verdict (n : nat) (script : list (option error)) : option error :=
  match script !! n with
  | Some f => f
  | None => None
  end.

(** Takes the verdict for the store call being made. *)
Definition next_fault : M (option error) :=
  fun w => Some (verdict 0 (faults w),
                 {| objects := objects w; faults := tail (faults w);
                    heap := heap w; trace := trace w |}).

Definition alloc (t : Topology) : M loc :=
  fun w => Some (length (heap w),
                 {| objects := objects w; faults := faults w;
                    heap := heap w ++ [t]; trace := trace w |}).

Definition load (p : loc) : M Topology :=
  fun w =>
    match heap w !! p with
    | None => None
    | Some t => Some (t, w)
    end.

Definition store (p : loc) (t : Topology) : M unit :=
  fun w =>
    match heap w !! p with
    | None => None
    | Some _ => Some (tt, {| objects := objects w; faults := faults w;
                             heap := <[p:=t]> (heap w); trace := trace w |})
    end.

Definition lookup_object (namespace name : string) : M (option Stored) :=
  fun w => Some (objects w !! (namespace, name), w).

Definition put_object (namespace name : string) (s : Stored) : M unit :=
  fun w => Some (tt, {| objects := <[(namespace, name) := s]> (objects w);
                        faults := faults w; heap := heap w; trace := trace w |}).

(** ** Collaborators *)

(** The client handle; [h.GetClient()] and the [c] passed to
    [EnsureDeletedTopologyRef] both reach the one API server of the world. *)
Inductive Client := ApiClient.

(** Modelled from the spec: [helper.Helper] (modules/common/helper) is not
    among the sources.  The two functions ask it for the "fixed owner
    prefix" of the finalizer token and for the client. *)
Record Helper := {
  GetFinalizer : string;
  GetClient : Client
}.

Definition set_Finalizers (f : list string) (t : Topology) : Topology :=
  {| Name := Name t; Namespace := Namespace t; Finalizers := f; Spec := Spec t |}.

Definition set_Spec (s : TopologySpec) (t : Topology) : Topology :=
  {| Name := Name t; Namespace := Namespace t; Finalizers := Finalizers t; Spec := s |}.

(** [topologyv1.GetTopologyByName]: allocates [&Topology{}] and asks the
    client to fill it; a missing object is a not-found status error.  The
    hash it also returns is dropped by both callers. *)
Definition GetTopologyByName (h : Helper) (name namespace : string)
  : M (loc * string * option error) :=
  _ <- log (EvGet namespace name) ;
  fault <- next_fault ;
  match fault with
  | Some e =>
      topology <- alloc Topology_zero ;
      ret (topology, "", Some e)
  | None =>
      found <- lookup_object namespace name ;
      match found with
      | None =>
          topology <- alloc Topology_zero ;
          ret (topology, "", Some (StatusError StatusReasonNotFound name))
      | Some s =>
          topology <- alloc (to_object namespace name s) ;
          ret (topology, "", None)
      end
  end.

Arguments GetTopologyByName : simpl never.

(** [client.Update]: replaces the stored object by the one passed. *)
Definition Update (c : Client) (obj : loc) : M (option error) :=
  t <- load obj ;
  _ <- log (EvUpdate t) ;
  fault <- next_fault ;
  match fault with
  | Some e => ret (Some e)
  | None =>
      found <- lookup_object (Namespace t) (Name t) ;
      match found with
      | None => ret (Some (StatusError StatusReasonNotFound (Name t)))
      | Some _ =>
          _ <- put_object (Namespace t) (Name t) (to_stored t) ;
          ret None
      end
  end.

(** [controllerutil.AddFinalizer]: appends the finalizer unless the object
    already has it; tells whether the list changed. *)
Definition AddFinalizer (o : loc) (finalizer : string) : M bool :=
  t <- load o ;
  if decide (finalizer ∈ Finalizers t)
  then ret false
  else
    _ <- store o (set_Finalizers (Finalizers t ++ [finalizer]) t) ;
    ret true.

(** [controllerutil.RemoveFinalizer]: drops every occurrence of the
    finalizer; tells whether the list changed. *)
Definition RemoveFinalizer (o : loc) (finalizer : string) : M bool :=
  t <- load o ;
  let f := filter (λ e, e ≠ finalizer) (Finalizers t) in
  _ <- store o (set_Finalizers f t) ;
  ret (negb (bool_decide (length (Finalizers t) = length f))).

(** The generated [DeepCopy]: a new object with the same content. *)
Definition DeepCopy (o : loc) : M loc :=
  t <- load o ;
  _ <- log (EvDeepCopy t) ;
  alloc t.

(** Modelled from the spec: [util.LogForObject] (modules/common/util) is not
    among the sources; it emits "an informational record of the removal"
    that "has no effect on control flow". *)
Definition LogForObject (h : Helper) (message : string) (o : loc) : M unit :=
  t <- load o ;
  log (EvLog message t).

(** [fmt.Sprintf("%s-%s", h.GetFinalizer(), finalizer)] *)
Definition finalizer_token (h : Helper) (finalizer : string) : string :=
  GetFinalizer h +:+ "-" +:+ finalizer.

Section Operator.

(** Modelled from the spec: [util.ObjectHash] (modules/common/util) is not
    among the sources.  The spec gives it the interface
    [ComputeHash(spec) -> (hash, error)] and calls its result a
    deterministic digest of the specification; nothing more is assumed of
    it, so it is a parameter of everything below. *)
Variable ObjectHash_fn : TopologySpec -> string * option error.

Definition ObjectHash (spec : TopologySpec) : M (string * option error) :=
  _ <- log (EvHash spec) ;
  ret (ObjectHash_fn spec).

(** EnsureTopologyRef - retrieve the Topology CR referenced and add a
    finalizer *)
Definition EnsureTopologyRef
    (h : Helper)
    (topologyRef : option TopologyRef)
    (finalizer : string)
    (defaultLabelSelector : LabelSelector)
    (defaultMatchLabelKeys : slice string)
  : M (option loc * string * option error) :=
  let hash := "" in
  match topologyRef with
  | None => ret (None, "", Some (Errorf "No valid TopologyRef input passed"))
  | Some r =>
      if decide (ref_Name r = "" ∨ ref_Namespace r = "")
      then ret (None, "", Some (Errorf "No valid TopologyRef input passed"))
      else
        '(topology, _, err) <- GetTopologyByName h (ref_Name r) (ref_Namespace r) ;
        match err with
        | Some e => ret (Some topology, hash, Some e)
        | None =>
            added <- AddFinalizer topology (finalizer_token h finalizer) ;
            err <- if added then Update (GetClient h) topology else ret None ;
            match err with
            | Some e => ret (Some topology, hash, Some e)
            | None =>
                topology <- DeepCopy topology ;
                t <- load topology ;
                _ <- store topology
                       (set_Spec
                          (applyDefaults defaultLabelSelector
                             defaultMatchLabelKeys (Spec t)) t) ;
                t <- load topology ;
                '(hash, err) <- ObjectHash (Spec t) ;
                match err with
                | Some e => ret (Some topology, hash, Some e)
                | None => ret (Some topology, hash, None)
                end
            end
        end
  end.

(** EnsureDeletedTopologyRef - remove the finalizer (passed as input) from
    the referenced topology CR *)
Definition EnsureDeletedTopologyRef
    (h : Helper)
    (c : Client)
    (topologyRef : option TopologyRef)
    (finalizer : string)
  : M (Result * option error) :=
  match topologyRef with
  | None => ret (Result_zero, None)
  | Some r =>
      if decide (ref_Name r = "" ∨ ref_Namespace r = "")
      then ret (Result_zero, None)
      else
        '(topology, _, err) <- GetTopologyByName h (ref_Name r) (ref_Namespace r) ;
        if bool_decide (err ≠ None) && negb (IsNotFound err)
        then ret (Result_zero, err)
        else
          if negb (IsNotFound err)
          then
            removed <- RemoveFinalizer topology (finalizer_token h finalizer) ;
            if removed
            then
              err <- Update c topology ;
              if bool_decide (err ≠ None) && negb (IsNotFound err)
              then ret (Result_zero, err)
              else
                _ <- LogForObject h "Removed finalizer from Topology" topology ;
                ret (Result_zero, None)
            else ret (Result_zero, None)
          else ret (Result_zero, None)
  end.

End Operator.

(** ** Vocabulary of the statements *)

Definition valid_ref (r : TopologyRef) : Prop :=
  ref_Name r ≠ "" ∧ ref_Namespace r ≠ "".

(** "No Topology is passed at all or it is missing some data". *)
Definition invalid_ref (topologyRef : option TopologyRef) : Prop :=
  match topologyRef with
  | None => True
  | Some r => ref_Name r = "" ∨ ref_Namespace r = ""
  end.

(** What a fetch of (namespace, name) meets in a world: the error it fails
    with, or the stored object it returns. *)
Definition fetch_result (namespace name : string) (w : World) : error + Stored :=
  match verdict 0 (faults w) with
  | Some e => inl e
  | None =>
      match objects w !! (namespace, name) with
      | None => inl (StatusError StatusReasonNotFound name)
      | Some s => inr s
      end
  end.

(** The calls made between two worlds of one execution. *)
Definition events_of (w w' : World) : list Event :=
  drop (length (trace w)) (trace w').

Definition is_Update (ev : Event) : bool :=
  match ev with
  | EvUpdate _ => true
  | _ => false
  end.

Definition is_Get (ev : Event) : bool :=
  match ev with
  | EvGet _ _ => true
  | _ => false
  end.

Definition kind (ev : Event) : string :=
  match ev with
  | EvGet _ _ => "Get"
  | EvUpdate _ => "Update"
  | EvDeepCopy _ => "DeepCopy"
  | EvHash _ => "Hash"
  | EvLog _ _ => "Log"
  end.

(** The store calls (fetches and updates) among some events. *)
Definition store_calls (evs : list Event) : list Event :=
  List.filter (λ ev, is_Get ev || is_Update ev) evs.

Definition updates (evs : list Event) : list Event :=
  List.filter is_Update evs.

(** The finalizers the API server holds for (namespace, name). *)
Definition stored_finalizers (namespace name : string) (w : World) : list string :=
  match objects w !! (namespace, name) with
  | None => []
  | Some s => st_Finalizers s
  end.

(** The fill-missing-only policy, in the words of the specification: a label
    selector is set to the default only when it is unset, a match-label-keys
    list only when it is empty, and nothing else changes. *)
Section FillMissingOnly.

Variable defaultLabelSelector : LabelSelector.
Variable defaultMatchLabelKeys : slice string.

Definition selector_filled (before after : option LabelSelector) : Prop :=
  match before with
  | None => after = Some defaultLabelSelector
  | Some _ => after = before
  end.

Definition keys_filled (before after : slice string) : Prop :=
  (len before = 0 → after = defaultMatchLabelKeys) ∧
  (len before ≠ 0 → after = before).

Record constraint_filled (c c' : TopologySpreadConstraint) : Prop := {
  cf_MaxSkew : tsc_MaxSkew c' = tsc_MaxSkew c;
  cf_TopologyKey : tsc_TopologyKey c' = tsc_TopologyKey c;
  cf_WhenUnsatisfiable : tsc_WhenUnsatisfiable c' = tsc_WhenUnsatisfiable c;
  cf_MinDomains : tsc_MinDomains c' = tsc_MinDomains c;
  cf_NodeAffinityPolicy : tsc_NodeAffinityPolicy c' = tsc_NodeAffinityPolicy c;
  cf_NodeTaintsPolicy : tsc_NodeTaintsPolicy c' = tsc_NodeTaintsPolicy c;
  cf_LabelSelector : selector_filled (tsc_LabelSelector c) (tsc_LabelSelector c');
  cf_MatchLabelKeys : keys_filled (tsc_MatchLabelKeys c) (tsc_MatchLabelKeys c')
}.

Record term_filled (t t' : PodAffinityTerm) : Prop := {
  tf_Namespaces : pat_Namespaces t' = pat_Namespaces t;
  tf_TopologyKey : pat_TopologyKey t' = pat_TopologyKey t;
  tf_NamespaceSelector : pat_NamespaceSelector t' = pat_NamespaceSelector t;
  tf_MismatchLabelKeys : pat_MismatchLabelKeys t' = pat_MismatchLabelKeys t;
  tf_LabelSelector : selector_filled (pat_LabelSelector t) (pat_LabelSelector t');
  tf_MatchLabelKeys : keys_filled (pat_MatchLabelKeys t) (pat_MatchLabelKeys t')
}.

Definition weighted_filled (w w' : WeightedPodAffinityTerm) : Prop :=
  Weight w' = Weight w ∧
  term_filled (PodAffinityTerm_of w) (PodAffinityTerm_of w').

(** Entry by entry over a slice: [nil] stays [nil], and the two slices
    have the same entries in the same order, each related by [R]. *)
Definition each {A : Type} (R : A → A → Prop) (s s' : slice A) : Prop :=
  option_Forall2 (Forall2 R) s s'.

Definition pod_affinity_filled (p p' : PodAffinity) : Prop :=
  each term_filled
    (pa_RequiredDuringSchedulingIgnoredDuringExecution p)
    (pa_RequiredDuringSchedulingIgnoredDuringExecution p') ∧
  each weighted_filled
    (pa_PreferredDuringSchedulingIgnoredDuringExecution p)
    (pa_PreferredDuringSchedulingIgnoredDuringExecution p').

Definition pod_anti_affinity_filled (p p' : PodAntiAffinity) : Prop :=
  each term_filled
    (paa_RequiredDuringSchedulingIgnoredDuringExecution p)
    (paa_RequiredDuringSchedulingIgnoredDuringExecution p') ∧
  each weighted_filled
    (paa_PreferredDuringSchedulingIgnoredDuringExecution p)
    (paa_PreferredDuringSchedulingIgnoredDuringExecution p').

Definition affinity_filled (a a' : Affinity) : Prop :=
  aff_NodeAffinity a' = aff_NodeAffinity a ∧
  option_Forall2 pod_affinity_filled (aff_PodAffinity a) (aff_PodAffinity a') ∧
  option_Forall2 pod_anti_affinity_filled
    (aff_PodAntiAffinity a) (aff_PodAntiAffinity a').

Definition spec_filled (s s' : TopologySpec) : Prop :=
  option_Forall2 (each constraint_filled)
    (TopologySpreadConstraints s) (TopologySpreadConstraints s') ∧
  option_Forall2 affinity_filled (Affinity_of s) (Affinity_of s').

End FillMissingOnly.

(** Modelled from the spec: "Hash errors are returned verbatim, with the
    copy (not persisted) and empty hash".  [EnsureTopologyRef] hands back the
    string [util.ObjectHash] returned, so the sentence is the contract of the
    absent [util.ObjectHash]: an error comes with the empty string. *)
Definition hash_error_contract
    (ObjectHash_fn : TopologySpec → string * option error) : Prop :=
  ∀ spec g e, ObjectHash_fn spec = (g, Some e) → g = "".

(** ** Sample data *)

Module Sample.

Definition selector (key value : string) : LabelSelector :=
  {| MatchLabels := [(key, value)]; MatchExpressions := [] |}.

(** The defaults a service operator passes. *)
Definition defaultLabelSelector : LabelSelector := selector "service" "glance".
Definition defaultMatchLabelKeys : slice string := Some [DeploymentMatchLabelKey].

(** A spread constraint that leaves both fields to the defaults. *)
Definition bare_constraint : TopologySpreadConstraint :=
  {| tsc_MaxSkew := 1; tsc_TopologyKey := "topology.kubernetes.io/zone";
     tsc_WhenUnsatisfiable := "DoNotSchedule";
     tsc_LabelSelector := None; tsc_MinDomains := None;
     tsc_NodeAffinityPolicy := None; tsc_NodeTaintsPolicy := None;
     tsc_MatchLabelKeys := Some [] |}.

(** A spread constraint that sets both. *)
Definition full_constraint : TopologySpreadConstraint :=
  {| tsc_MaxSkew := 2; tsc_TopologyKey := "kubernetes.io/hostname";
     tsc_WhenUnsatisfiable := "ScheduleAnyway";
     tsc_LabelSelector := Some (selector "app" "api"); tsc_MinDomains := Some 2%Z;
     tsc_NodeAffinityPolicy := None; tsc_NodeTaintsPolicy := None;
     tsc_MatchLabelKeys := Some ["zone-hash"] |}.

Definition bare_term : PodAffinityTerm :=
  {| pat_LabelSelector := None; pat_Namespaces := None;
     pat_TopologyKey := "kubernetes.io/hostname";
     pat_NamespaceSelector := None;
     pat_MatchLabelKeys := None; pat_MismatchLabelKeys := None |}.

Definition full_term : PodAffinityTerm :=
  {| pat_LabelSelector := Some (selector "app" "db"); pat_Namespaces := Some ["openstack"];
     pat_TopologyKey := "topology.kubernetes.io/zone";
     pat_NamespaceSelector := None;
     pat_MatchLabelKeys := Some ["rev"]; pat_MismatchLabelKeys := None |}.

Definition spec : TopologySpec :=
  {| TopologySpreadConstraints := Some (Some [bare_constraint; full_constraint]);
     Affinity_of :=
       Some {| aff_NodeAffinity := Some (NodeAffinityData "zone in (a, b)");
               aff_PodAffinity :=
                 Some {| pa_RequiredDuringSchedulingIgnoredDuringExecution :=
                           Some [full_term];
                         pa_PreferredDuringSchedulingIgnoredDuringExecution :=
                           None |};
               aff_PodAntiAffinity :=
                 Some {| paa_RequiredDuringSchedulingIgnoredDuringExecution :=
                           Some [bare_term];
                         paa_PreferredDuringSchedulingIgnoredDuringExecution :=
                           Some [{| Weight := 100;
                                    PodAffinityTerm_of := bare_term |}] |} |} |}.

Definition h : Helper :=
  {| GetFinalizer := "svc-operator"; GetClient := ApiClient |}.

Definition ref : TopologyRef :=
  {| ref_Name := "topo"; ref_Namespace := "openstack" |}.

Definition nameless_ref : TopologyRef :=
  {| ref_Name := ""; ref_Namespace := "openstack" |}.

Definition conflict : error :=
  StatusError StatusReasonConflict "the object has been modified".

Definition gone : error :=
  StatusError StatusReasonNotFound "topo".

Definition timeout : error :=
  StatusError "Timeout" "request timed out".

Definition world (finalizers : list string) (script : list (option error)) : World :=
  {| objects :=
       {[ ("openstack", "topo") :=
            {| st_Finalizers := finalizers; st_Spec := spec |} ]};
     faults := script; heap := []; trace := [] |}.

(** The Topology exists and nobody holds it. *)
Definition unattached : World := world [] [].

(** The Topology exists and already carries the token of this consumer. *)
Definition attached : World := world ["svc-operator-myservice"] [].

(** The fetch goes through, the update meets a conflict. *)
Definition contended : World := world [] [None; Some conflict].

(** The token is there, the object is deleted before the update. *)
Definition vanishing : World :=
  world ["svc-operator-myservice"] [None; Some gone].

(** The token is there, the update times out. *)
Definition slow : World :=
  world ["svc-operator-myservice"] [None; Some timeout].

(** The API server cannot be reached. *)
Definition unreachable : World := world [] [Some timeout].

(** No Topology under that name. *)
Definition empty : World :=
  {| objects := ∅; faults := []; heap := []; trace := [] |}.

(** Stand-ins for the digest: one that succeeds, one that fails. *)
Definition digest (spec : TopologySpec) : string * option error :=
  ("n5d8h66dh5c9h5f5h64bh5b7h5f8q", None).

Definition failing_digest (spec : TopologySpec) : string * option error :=
  ("", Some (Errorf "unable to convert to JSON")).

(** What a run on world [w] gave: the result, the kinds of the calls made,
    and the finalizers stored for the sample Topology afterwards. *)
Definition summary {A : Type} (w : World) (run : option (A * World))
  : option (A * list string * list string) :=
  match run with
  | None => None
  | Some (res, w') =>
      Some (res, kind <$> events_of w w', stored_finalizers "openstack" "topo" w')
  end.

(** The world a first successful attach of "myservice" leaves behind. *)
Definition after_attach : World :=
  match
    EnsureTopologyRef digest h (Some ref) "myservice"
      defaultLabelSelector defaultMatchLabelKeys unattached
  with
  | Some (_, w') => w'
  | None => unattached
  end.

End Sample.

(** ** The entries of a spec *)

(** The spread constraints the first loop walks. *)
Definition constraints_of (spec : TopologySpec) : list TopologySpreadConstraint :=
  match TopologySpreadConstraints spec with
  | Some (Some l) => l
  | _ => []
  end.

Definition entries {A : Type} (s : slice A) : list A :=
  match s with
  | Some l => l
  | None => []
  end.

(** The affinity terms the other four loops walk, in the order of the
    source: pod affinity required and preferred, then pod anti-affinity
    required and preferred. *)
Definition terms_of (spec : TopologySpec) : list PodAffinityTerm :=
  match Affinity_of spec with
  | None => []
  | Some affinity =>
      match aff_PodAffinity affinity with
      | None => []
      | Some p =>
          entries (pa_RequiredDuringSchedulingIgnoredDuringExecution p) ++
          (PodAffinityTerm_of <$>
             entries (pa_PreferredDuringSchedulingIgnoredDuringExecution p))
      end ++
      match aff_PodAntiAffinity affinity with
      | None => []
      | Some p =>
          entries (paa_RequiredDuringSchedulingIgnoredDuringExecution p) ++
          (PodAffinityTerm_of <$>
             entries (paa_PreferredDuringSchedulingIgnoredDuringExecution p))
      end
  end.

(** An entry that leaves nothing to the defaults. *)
Definition constraint_complete (c : TopologySpreadConstraint) : Prop :=
  is_Some (tsc_LabelSelector c) ∧ len (tsc_MatchLabelKeys c) ≠ 0.

Definition term_complete (t : PodAffinityTerm) : Prop :=
  is_Some (pat_LabelSelector t) ∧ len (pat_MatchLabelKeys t) ≠ 0.

Definition spec_complete (spec : TopologySpec) : Prop :=
  Forall constraint_complete (constraints_of spec) ∧
  Forall term_complete (terms_of spec).

(** The environment lets every coming store call through. *)
Definition calm (w : World) : Prop :=
  ∀ n, verdict n (faults w) = None.

(** ** The earlier variant of [EnsureTopologyRef] *)

(** The second copy of the package has [EnsureTopologyRef] without
    default-filling: it returns the fetched object itself and the hash the
    fetch handed back.  [EnsureDeletedTopologyRef] is the same in both. *)
Module Earlier.

Section WithFetchHash.

(** The hash [topologyv1.GetTopologyByName] hands back next to the object,
    as a function of what the fetch met; the variant passes it on
    untouched. *)
Variable fetch_hash : error + Stored → string.

Definition GetTopologyByName (h : Helper) (name namespace : string)
  : M (loc * string * option error) :=
  fun w =>
    match GetTopologyByName h name namespace w with
    | None => None
    | Some ((topology, _, err), w') =>
        Some ((topology, fetch_hash (fetch_result namespace name w), err), w')
    end.

(** EnsureTopologyRef - retrieve the Topology CR referenced and add a
    finalizer *)
Definition EnsureTopologyRef
    (h : Helper)
    (topologyRef : option TopologyRef)
    (finalizer : string)
  : M (option loc * string * option error) :=
  match topologyRef with
  | None => ret (None, "", Some (Errorf "No valid TopologyRef input passed"))
  | Some r =>
      if decide (ref_Name r = "" ∨ ref_Namespace r = "")
      then ret (None, "", Some (Errorf "No valid TopologyRef input passed"))
      else
        '(topology, hash, err) <- GetTopologyByName h (ref_Name r) (ref_Namespace r) ;
        match err with
        | Some e => ret (Some topology, hash, Some e)
        | None =>
            added <- AddFinalizer topology (finalizer_token h finalizer) ;
            err <- if added then Update (GetClient h) topology else ret None ;
            match err with
            | Some e => ret (Some topology, hash, Some e)
            | None => ret (Some topology, hash, None)
            end
        end
  end.

End WithFetchHash.

End Earlier.

(** More sample data: a spec that leaves nothing to the defaults, and a
    second consumer. *)
Module Sample2.

Definition complete_spec : TopologySpec :=
  {| TopologySpreadConstraints := Some (Some [Sample.full_constraint]);
     Affinity_of :=
       Some {| aff_NodeAffinity := None;
               aff_PodAffinity := None;
               aff_PodAntiAffinity :=
                 Some {| paa_RequiredDuringSchedulingIgnoredDuringExecution :=
                           Some [Sample.full_term];
                         paa_PreferredDuringSchedulingIgnoredDuringExecution :=
                           Some [{| Weight := 10;
                                    PodAffinityTerm_of := Sample.full_term |}] |} |} |}.

(** The Topology is held by another consumer of the same operator. *)
Definition shared : World := Sample.world ["svc-operator-otherservice"] [].

(** The Topology is held by both consumers. *)
Definition shared_attached : World :=
  Sample.world ["svc-operator-otherservice"; "svc-operator-myservice"] [].

(** A digest that tells specs apart by their number of spread constraints. *)
Definition counting_digest (spec : TopologySpec) : string * option error :=
  (String.concat "" ((λ _, "c") <$> constraints_of spec), None).

(** The hash a fetch hands back in the earlier variant. *)
Definition fetch_hash (met : error + Stored) : string :=
  match met with
  | inl _ => ""
  | inr _ => "n5d8h66dh5c9h5f5h64bh5b7h5f8q"
  end.

End Sample2.

(** * Properties *)

(** ** The loops *)

Lemma for_index_lookup {A : Type} (body : A → A) (fuel : nat) :
  ∀ (i : nat) (l : list A) (j : nat),
    for_index body fuel i l !! j =
      if decide (i ≤ j ∧ j < i + fuel) then body <$> (l !! j) else l !! j.
Proof.
  induction fuel as [|k IH]; intros i l j; simpl.
  - case_decide; [lia | done].
  - destruct (decide (i < length l)) as [Hi|Hi].
    + rewrite IH. destruct (decide (j = i)) as [->|Hne].
      * rewrite decide_False by lia. rewrite decide_True by lia.
        apply list_lookup_alter_eq.
      * rewrite list_lookup_alter_ne by done.
        repeat case_decide; try done; lia.
    + case_decide; [|done].
      rewrite (lookup_ge_None_2 l j) by lia. done.
Qed.

Lemma for_index_length {A : Type} (body : A → A) (fuel : nat) :
  ∀ (i : nat) (l : list A), length (for_index body fuel i l) = length l.
Proof.
  induction fuel as [|k IH]; intros i l; simpl; [done|].
  case_decide; [|done]. rewrite IH. apply length_alter.
Qed.

(** With [len(l)] iterations from index 0 the loop has visited every entry:
    the fuel never runs out before the loop condition fails. *)
Lemma for_index_fmap {A : Type} (body : A → A) (l : list A) :
  for_index body (length l) 0 l = body <$> l.
Proof.
  apply list_eq. intros j. rewrite for_index_lookup, list_lookup_fmap.
  case_decide as H; [done|].
  rewrite (lookup_ge_None_2 l j) by lia. done.
Qed.

Lemma for_range_fmap {A : Type} (body : A → A) (s : slice A) :
  for_range body s = match s with None => None | Some l => Some (body <$> l) end.
Proof. destruct s as [l|]; simpl; [|done]. by rewrite for_index_fmap. Qed.

(** ** Default-filling is fill-missing-only *)

Section FillMissingOnlyFacts.

Variable defaultLabelSelector : LabelSelector.
Variable defaultMatchLabelKeys : slice string.

Lemma defaultConstraint_filled (c : TopologySpreadConstraint) :
  constraint_filled defaultLabelSelector defaultMatchLabelKeys c
    (defaultConstraint defaultLabelSelector defaultMatchLabelKeys c).
Proof.
  unfold defaultConstraint.
  destruct c as [ms tk wu [sel|] md nap ntp keys]; simpl;
    case_decide; constructor; simpl; try done; split; intros; congruence.
Qed.

Lemma defaultTerm_filled (t : PodAffinityTerm) :
  term_filled defaultLabelSelector defaultMatchLabelKeys t
    (defaultTerm defaultLabelSelector defaultMatchLabelKeys t).
Proof.
  unfold defaultTerm.
  destruct t as [[sel|] ns tk nsel keys mkeys]; simpl;
    case_decide; constructor; simpl; try done; split; intros; congruence.
Qed.

Lemma defaultWeighted_filled (w : WeightedPodAffinityTerm) :
  weighted_filled defaultLabelSelector defaultMatchLabelKeys w
    (defaultWeighted defaultLabelSelector defaultMatchLabelKeys w).
Proof. split; [done | apply defaultTerm_filled]. Qed.

Lemma for_range_each {A : Type} (R : A → A → Prop) (body : A → A) (s : slice A) :
  (∀ x, R x (body x)) → each R s (for_range body s).
Proof.
  intros HR. rewrite for_range_fmap. destruct s as [l|]; constructor.
  apply Forall2_fmap_r, Forall_Forall2_diag, Forall_forall. intros x _. apply HR.
Qed.

Lemma applyDefaults_filled (spec : TopologySpec) :
  spec_filled defaultLabelSelector defaultMatchLabelKeys spec
    (applyDefaults defaultLabelSelector defaultMatchLabelKeys spec).
Proof.
  destruct spec as [cs aff]. split; simpl.
  - destruct cs as [s|]; constructor.
    apply for_range_each, defaultConstraint_filled.
  - destruct aff as [[na pa paa]|]; constructor; simpl.
    split; [done|]. split; simpl.
    + destruct pa as [p|]; constructor. split.
      * apply for_range_each, defaultTerm_filled.
      * apply for_range_each, defaultWeighted_filled.
    + destruct paa as [p|]; constructor. split.
      * apply for_range_each, defaultTerm_filled.
      * apply for_range_each, defaultWeighted_filled.
Qed.

(** An entry with both fields set comes back as it was. *)
Lemma constraint_filled_set (c c' : TopologySpreadConstraint) :
  constraint_filled defaultLabelSelector defaultMatchLabelKeys c c' →
  is_Some (tsc_LabelSelector c) → len (tsc_MatchLabelKeys c) ≠ 0 → c' = c.
Proof.
  intros [? ? ? ? ? ? Hs [_ Hk']] [sel Hsel] Hk. unfold selector_filled in Hs.
  rewrite Hsel in Hs. specialize (Hk' Hk).
  destruct c, c'; simpl in *. congruence.
Qed.

Lemma term_filled_set (t t' : PodAffinityTerm) :
  term_filled defaultLabelSelector defaultMatchLabelKeys t t' →
  is_Some (pat_LabelSelector t) → len (pat_MatchLabelKeys t) ≠ 0 → t' = t.
Proof.
  intros [? ? ? ? Hs [_ Hk']] [sel Hsel] Hk. unfold selector_filled in Hs.
  rewrite Hsel in Hs. specialize (Hk' Hk).
  destruct t, t'; simpl in *. congruence.
Qed.

End FillMissingOnlyFacts.

(** ** Memory and store calls *)

Lemma lookup_snoc {A : Type} (l : list A) (x : A) :
  (l ++ [x]) !! length l = Some x.
Proof. by apply list_lookup_middle. Qed.

Lemma insert_snoc {A : Type} (l : list A) (x y : A) :
  <[length l := y]> (l ++ [x]) = l ++ [y].
Proof. rewrite insert_app_r_alt by lia. by rewrite Nat.sub_diag. Qed.

Lemma lookup_snoc_old {A : Type} (l : list A) (x : A) (i : nat) :
  i < length l → (l ++ [x]) !! i = l !! i.
Proof. intros. by apply lookup_app_l. Qed.

Lemma verdict_tail (n : nat) (script : list (option error)) :
  verdict n (tail script) = verdict (S n) script.
Proof. unfold verdict. by rewrite lookup_tail. Qed.

Lemma events_of_app (w w' : World) (evs : list Event) :
  trace w' = trace w ++ evs → events_of w w' = evs.
Proof. intros H. unfold events_of. rewrite H. apply drop_app_length. Qed.

(** The fetch never panics; it returns a fresh address, leaves the store as
    it is and makes one call. *)
Lemma GetTopologyByName_run (h : Helper) (name namespace : string) (w : World) :
  GetTopologyByName h name namespace w =
    Some ((length (heap w), "",
           match fetch_result namespace name w with
           | inl e => Some e
           | inr _ => None
           end),
          {| objects := objects w;
             faults := tail (faults w);
             heap := heap w ++
                     [match fetch_result namespace name w with
                      | inl _ => Topology_zero
                      | inr s => to_object namespace name s
                      end];
             trace := trace w ++ [EvGet namespace name] |}).
Proof.
  unfold GetTopologyByName, fetch_result, bind, log, next_fault, lookup_object,
    alloc, ret; cbn.
  destruct (verdict 0 (faults w)); cbn; [reflexivity|].
  destruct (objects w !! (namespace, name)); reflexivity.
Qed.

Lemma IsNotFound_nil : IsNotFound None = false.
Proof. reflexivity. Qed.

Lemma filter_absent (token : string) (l : list string) :
  token ∉ l → filter (λ e, e ≠ token) l = l.
Proof.
  induction l as [|x l IH]; intros Hnin; [done|].
  apply not_elem_of_cons in Hnin as [Hne Hnin].
  rewrite filter_cons_True by done. by rewrite IH.
Qed.

(** Reduces the reads and writes of the cell allocated last. *)
Ltac run_memory :=
  repeat (progress (cbn; rewrite ?lookup_snoc, ?insert_snoc)).

Section Runs.

Variable ObjectHash_fn : TopologySpec → string * option error.
Variable h : Helper.
Variable r : TopologyRef.
Variable finalizer : string.

Let token : string := finalizer_token h finalizer.
Let ns : string := ref_Namespace r.
Let name : string := ref_Name r.

(** The whole run of [EnsureTopologyRef] on a valid reference, path by
    path: it never panics, and its result and final world are determined by
    what the fetch meets, by whether the token is there and by the verdict
    on the update.  [finish] is lines 76-149: copy, fill the defaults on the
    copy, hash the copy's spec. *)
Lemma EnsureTopologyRef_run
    (defaultLabelSelector : LabelSelector)
    (defaultMatchLabelKeys : slice string) (w : World) :
  valid_ref r →
  EnsureTopologyRef ObjectHash_fn h (Some r) finalizer
    defaultLabelSelector defaultMatchLabelKeys w =
  let p := length (heap w) in
  let tr := trace w ++ [EvGet ns name] in
  let finish (o : Topology) (objs : gmap (string * string) Stored)
             (script : list (option error)) (tr : list Event) :=
    let spec' :=
      applyDefaults defaultLabelSelector defaultMatchLabelKeys (Spec o) in
    Some ((Some (S p), (ObjectHash_fn spec').1, (ObjectHash_fn spec').2),
          {| objects := objs; faults := script;
             heap := (heap w ++ [o]) ++ [set_Spec spec' o];
             trace := (tr ++ [EvDeepCopy o]) ++ [EvHash spec'] |}) in
  match fetch_result ns name w with
  | inl e =>
      Some ((Some p, "", Some e),
            {| objects := objects w; faults := tail (faults w);
               heap := heap w ++ [Topology_zero]; trace := tr |})
  | inr s =>
      let o := to_object ns name s in
      if decide (token ∈ st_Finalizers s)
      then finish o (objects w) (tail (faults w)) tr
      else
        let o' := set_Finalizers (st_Finalizers s ++ [token]) o in
        match verdict 1 (faults w) with
        | Some e =>
            Some ((Some p, "", Some e),
                  {| objects := objects w; faults := tail (tail (faults w));
                     heap := heap w ++ [o']; trace := tr ++ [EvUpdate o'] |})
        | None =>
            finish o' (<[(ns, name) := to_stored o']> (objects w))
              (tail (tail (faults w))) (tr ++ [EvUpdate o'])
        end
  end.
Proof.
  intros [Hname Hns]. unfold EnsureTopologyRef.
  rewrite decide_False by (intros [?|?]; done).
  unfold bind at 1. rewrite GetTopologyByName_run. fold ns name.
  destruct (fetch_result ns name w) as [e|s] eqn:Hfetch; cbn; [done|].
  unfold AddFinalizer, Update, DeepCopy, ObjectHash, bind, load, store, log,
    next_fault, lookup_object, put_object, alloc, ret.
  run_memory. fold token.
  destruct (decide (token ∈ st_Finalizers s)) as [Hin|Hnin]; run_memory.
  - rewrite length_app, Nat.add_1_r.
    by destruct (ObjectHash_fn _) as [hash [e|]].
  - rewrite verdict_tail.
    destruct (verdict 1 (faults w)) as [e|]; run_memory; [done|].
    assert (objects w !! (ns, name) = Some s) as ->.
    { unfold fetch_result in Hfetch.
      destruct (verdict 0 (faults w)); [done|].
      destruct (objects w !! (ns, name)); congruence. }
    run_memory. rewrite length_app, Nat.add_1_r.
    by destruct (ObjectHash_fn _) as [hash [e|]].
Qed.

(** An invalid reference is turned away before anything is called. *)
Lemma EnsureTopologyRef_invalid
    (topologyRef : option TopologyRef)
    (defaultLabelSelector : LabelSelector)
    (defaultMatchLabelKeys : slice string) (w : World) :
  invalid_ref topologyRef →
  EnsureTopologyRef ObjectHash_fn h topologyRef finalizer
    defaultLabelSelector defaultMatchLabelKeys w =
  Some ((None, "", Some (Errorf "No valid TopologyRef input passed")), w).
Proof.
  intros Hinv. unfold EnsureTopologyRef.
  destruct topologyRef as [r'|]; [|done].
  simpl in Hinv. by rewrite decide_True.
Qed.

Lemma EnsureDeletedTopologyRef_invalid
    (c : Client) (topologyRef : option TopologyRef) (w : World) :
  invalid_ref topologyRef →
  EnsureDeletedTopologyRef h c topologyRef finalizer w =
  Some ((Result_zero, None), w).
Proof.
  intros Hinv. unfold EnsureDeletedTopologyRef.
  destruct topologyRef as [r'|]; [|done].
  simpl in Hinv. by rewrite decide_True.
Qed.

(** [RemoveFinalizer] reports a change exactly when the token was there. *)
Lemma removed_iff (l : list string) :
  negb (bool_decide (length l = length (filter (λ e, e ≠ token) l))) =
  bool_decide (token ∈ l).
Proof.
  destruct (decide (token ∈ l)) as [Hin|Hnin].
  - rewrite (bool_decide_eq_true_2 _ Hin).
    rewrite bool_decide_eq_false_2; [done|].
    pose proof (length_filter_lt (λ e, e ≠ token) l token Hin) as Hlt.
    intros Heq. rewrite <- Heq in Hlt. apply (Nat.lt_irrefl (length l)).
    apply Hlt. intros Hne. by apply Hne.
  - rewrite (bool_decide_eq_false_2 _ Hnin).
    rewrite bool_decide_eq_true_2; [done|]. f_equal. symmetry.
    by apply filter_absent.
Qed.

(** The whole run of [EnsureDeletedTopologyRef] on a valid reference. *)
Lemma EnsureDeletedTopologyRef_run (c : Client) (w : World) :
  valid_ref r →
  EnsureDeletedTopologyRef h c (Some r) finalizer w =
  let tr := trace w ++ [EvGet ns name] in
  match fetch_result ns name w with
  | inl e =>
      Some ((Result_zero, if IsNotFound (Some e) then None else Some e),
            {| objects := objects w; faults := tail (faults w);
               heap := heap w ++ [Topology_zero]; trace := tr |})
  | inr s =>
      let o' :=
        set_Finalizers (filter (λ e, e ≠ token) (st_Finalizers s))
          (to_object ns name s) in
      let message := "Removed finalizer from Topology" in
      if decide (token ∈ st_Finalizers s)
      then
        match verdict 1 (faults w) with
        | Some e =>
            if IsNotFound (Some e)
            then
              Some ((Result_zero, None),
                    {| objects := objects w; faults := tail (tail (faults w));
                       heap := heap w ++ [o'];
                       trace := (tr ++ [EvUpdate o']) ++ [EvLog message o'] |})
            else
              Some ((Result_zero, Some e),
                    {| objects := objects w; faults := tail (tail (faults w));
                       heap := heap w ++ [o']; trace := tr ++ [EvUpdate o'] |})
        | None =>
            Some ((Result_zero, None),
                  {| objects := <[(ns, name) := to_stored o']> (objects w);
                     faults := tail (tail (faults w));
                     heap := heap w ++ [o'];
                     trace := (tr ++ [EvUpdate o']) ++ [EvLog message o'] |})
        end
      else
        Some ((Result_zero, None),
              {| objects := objects w; faults := tail (faults w);
                 heap := heap w ++ [o']; trace := tr |})
  end.
Proof.
  intros [Hname Hns]. unfold EnsureDeletedTopologyRef.
  rewrite decide_False by (intros [?|?]; done).
  unfold bind at 1. rewrite GetTopologyByName_run. fold ns name.
  destruct (fetch_result ns name w) as [e|s] eqn:Hfetch; cbn.
  - by destruct (IsNotFound (Some e)).
  - unfold RemoveFinalizer, Update, LogForObject, bind, load, store, log,
      next_fault, lookup_object, put_object, alloc, ret.
    rewrite IsNotFound_nil. run_memory. fold token. rewrite removed_iff.
    destruct (decide (token ∈ st_Finalizers s)) as [Hin|Hnin].
    + rewrite (bool_decide_eq_true_2 _ Hin). run_memory.
      rewrite verdict_tail.
      destruct (verdict 1 (faults w)) as [e|]; run_memory.
      * destruct (IsNotFound (Some e)); run_memory; done.
      * assert (objects w !! (ns, name) = Some s) as ->.
        { unfold fetch_result in Hfetch.
          destruct (verdict 0 (faults w)); [done|].
          destruct (objects w !! (ns, name)); congruence. }
        run_memory. done.
    + rewrite (bool_decide_eq_false_2 _ Hnin). done.
Qed.

End Runs.

(** ** Reading the final memory *)

Lemma lookup_snoc2_last {A : Type} (l : list A) (x y : A) :
  ((l ++ [x]) ++ [y]) !! S (length l) = Some y.
Proof.
  replace (S (length l)) with (length (l ++ [x])); [apply lookup_snoc|].
  rewrite length_app. simpl. lia.
Qed.

Lemma lookup_snoc2_first {A : Type} (l : list A) (x y : A) :
  ((l ++ [x]) ++ [y]) !! length l = Some x.
Proof.
  rewrite lookup_app_l; [apply lookup_snoc|].
  rewrite length_app. simpl. lia.
Qed.

Lemma lookup_snoc2_old {A : Type} (l : list A) (x y : A) (i : nat) :
  i < length l → ((l ++ [x]) ++ [y]) !! i = l !! i.
Proof.
  intros Hi. rewrite <- app_assoc. by apply lookup_app_l.
Qed.

Lemma ref_cases (topologyRef : option TopologyRef) :
  invalid_ref topologyRef ∨ ∃ r, topologyRef = Some r ∧ valid_ref r.
Proof.
  destruct topologyRef as [r|]; [|by left].
  destruct (decide (ref_Name r = "")) as [?|Hn]; [left; by left|].
  destruct (decide (ref_Namespace r = "")) as [?|Hs]; [left; by right|].
  right. by exists r.
Qed.

Lemma fetch_result_found (namespace name : string) (w : World) (s : Stored) :
  fetch_result namespace name w = inr s →
  verdict 0 (faults w) = None ∧ objects w !! (namespace, name) = Some s.
Proof.
  unfold fetch_result. destruct (verdict 0 (faults w)); [done|].
  destruct (objects w !! (namespace, name)); [|done]. intros [= ->]. done.
Qed.

(** ** Concrete runs *)

Example bare_constraint_gets_both_defaults :
  defaultConstraint Sample.defaultLabelSelector Sample.defaultMatchLabelKeys
    Sample.bare_constraint =
  {| tsc_MaxSkew := 1; tsc_TopologyKey := "topology.kubernetes.io/zone";
     tsc_WhenUnsatisfiable := "DoNotSchedule";
     tsc_LabelSelector := Some (Sample.selector "service" "glance");
     tsc_MinDomains := None;
     tsc_NodeAffinityPolicy := None; tsc_NodeTaintsPolicy := None;
     tsc_MatchLabelKeys := Some ["pod-template-hash"] |}.
Proof. reflexivity. Qed.

Example full_constraint_is_kept :
  defaultConstraint Sample.defaultLabelSelector Sample.defaultMatchLabelKeys
    Sample.full_constraint = Sample.full_constraint.
Proof. reflexivity. Qed.

Example nil_keys_count_as_empty :
  pat_MatchLabelKeys
    (defaultTerm Sample.defaultLabelSelector Sample.defaultMatchLabelKeys
       Sample.bare_term) = Some ["pod-template-hash"].
Proof. reflexivity. Qed.

Example sample_spec_defaulted :
  TopologySpreadConstraints
    (applyDefaults Sample.defaultLabelSelector Sample.defaultMatchLabelKeys
       Sample.spec) =
  Some (Some [defaultConstraint Sample.defaultLabelSelector
                Sample.defaultMatchLabelKeys Sample.bare_constraint;
              Sample.full_constraint]).
Proof. reflexivity. Qed.

Example attach_first_time :
  Sample.summary Sample.unattached
    (EnsureTopologyRef Sample.digest Sample.h (Some Sample.ref) "myservice"
       Sample.defaultLabelSelector Sample.defaultMatchLabelKeys
       Sample.unattached) =
  Some ((Some 1, "n5d8h66dh5c9h5f5h64bh5b7h5f8q", None),
        ["Get"; "Update"; "DeepCopy"; "Hash"], ["svc-operator-myservice"]).
Proof. vm_compute. reflexivity. Qed.

Example attach_when_attached :
  Sample.summary Sample.attached
    (EnsureTopologyRef Sample.digest Sample.h (Some Sample.ref) "myservice"
       Sample.defaultLabelSelector Sample.defaultMatchLabelKeys
       Sample.attached) =
  Some ((Some 1, "n5d8h66dh5c9h5f5h64bh5b7h5f8q", None),
        ["Get"; "DeepCopy"; "Hash"], ["svc-operator-myservice"]).
Proof. vm_compute. reflexivity. Qed.

Example attach_under_conflict :
  Sample.summary Sample.contended
    (EnsureTopologyRef Sample.digest Sample.h (Some Sample.ref) "myservice"
       Sample.defaultLabelSelector Sample.defaultMatchLabelKeys
       Sample.contended) =
  Some ((Some 0, "", Some Sample.conflict), ["Get"; "Update"], []).
Proof. vm_compute. reflexivity. Qed.

Example attach_unreachable :
  Sample.summary Sample.unreachable
    (EnsureTopologyRef Sample.digest Sample.h (Some Sample.ref) "myservice"
       Sample.defaultLabelSelector Sample.defaultMatchLabelKeys
       Sample.unreachable) =
  Some ((Some 0, "", Some Sample.timeout), ["Get"], []).
Proof. vm_compute. reflexivity. Qed.

Example attach_hash_failure_keeps_finalizer :
  Sample.summary Sample.unattached
    (EnsureTopologyRef Sample.failing_digest Sample.h (Some Sample.ref)
       "myservice" Sample.defaultLabelSelector Sample.defaultMatchLabelKeys
       Sample.unattached) =
  Some ((Some 1, "", Some (Errorf "unable to convert to JSON")),
        ["Get"; "Update"; "DeepCopy"; "Hash"], ["svc-operator-myservice"]).
Proof. vm_compute. reflexivity. Qed.

Example detach_attached :
  Sample.summary Sample.attached
    (EnsureDeletedTopologyRef Sample.h ApiClient (Some Sample.ref) "myservice"
       Sample.attached) =
  Some ((Result_zero, None), ["Get"; "Update"; "Log"], []).
Proof. vm_compute. reflexivity. Qed.

Example detach_unattached :
  Sample.summary Sample.unattached
    (EnsureDeletedTopologyRef Sample.h ApiClient (Some Sample.ref) "myservice"
       Sample.unattached) =
  Some ((Result_zero, None), ["Get"], []).
Proof. vm_compute. reflexivity. Qed.

Example detach_missing :
  Sample.summary Sample.empty
    (EnsureDeletedTopologyRef Sample.h ApiClient (Some Sample.ref) "myservice"
       Sample.empty) =
  Some ((Result_zero, None), ["Get"], []).
Proof. vm_compute. reflexivity. Qed.

Example detach_deleted_meanwhile :
  Sample.summary Sample.vanishing
    (EnsureDeletedTopologyRef Sample.h ApiClient (Some Sample.ref) "myservice"
       Sample.vanishing) =
  Some ((Result_zero, None), ["Get"; "Update"; "Log"],
        ["svc-operator-myservice"]).
Proof. vm_compute. reflexivity. Qed.

Example detach_timeout :
  Sample.summary Sample.slow
    (EnsureDeletedTopologyRef Sample.h ApiClient (Some Sample.ref) "myservice"
       Sample.slow) =
  Some ((Result_zero, Some Sample.timeout), ["Get"; "Update"],
        ["svc-operator-myservice"]).
Proof. vm_compute. reflexivity. Qed.

Example detach_unreachable :
  Sample.summary Sample.unreachable
    (EnsureDeletedTopologyRef Sample.h ApiClient (Some Sample.ref) "myservice"
       Sample.unreachable) =
  Some ((Result_zero, Some Sample.timeout), ["Get"], []).
Proof. vm_compute. reflexivity. Qed.

(** ** The claims *)

(** C3.  A reference that is nil, or has an empty name or an empty
    namespace, is settled before any collaborator is called:
    [EnsureTopologyRef] returns the invalid-reference error,
    [EnsureDeletedTopologyRef] returns the zero result and a nil error, and
    both leave the world as it was, so no fetch and no update is made. *)
Theorem invalid_reference_no_store_call
    (ObjectHash_fn : TopologySpec → string * option error)
    (h : Helper) (c : Client) (topologyRef : option TopologyRef)
    (finalizer : string) (defaultLabelSelector : LabelSelector)
    (defaultMatchLabelKeys : slice string) (w : World) :
  invalid_ref topologyRef →
  EnsureTopologyRef ObjectHash_fn h topologyRef finalizer
    defaultLabelSelector defaultMatchLabelKeys w =
    Some ((None, "", Some (Errorf "No valid TopologyRef input passed")), w) ∧
  EnsureDeletedTopologyRef h c topologyRef finalizer w =
    Some ((Result_zero, None), w) ∧
  store_calls (events_of w w) = [].
Proof.
  intros Hinv. split; [|split].
  - by apply EnsureTopologyRef_invalid.
  - by apply EnsureDeletedTopologyRef_invalid.
  - rewrite (events_of_app w w []); [done|]. by rewrite app_nil_r.
Qed.

Lemma invalid_reference_no_store_call_witness :
  EnsureTopologyRef Sample.digest Sample.h (Some Sample.nameless_ref) "myservice"
    Sample.defaultLabelSelector Sample.defaultMatchLabelKeys Sample.unattached =
    Some ((None, "", Some (Errorf "No valid TopologyRef input passed")),
          Sample.unattached) ∧
  EnsureDeletedTopologyRef Sample.h ApiClient (Some Sample.nameless_ref)
    "myservice" Sample.unattached =
    Some ((Result_zero, None), Sample.unattached) ∧
  store_calls (events_of Sample.unattached Sample.unattached) = [].
Proof.
  apply (invalid_reference_no_store_call Sample.digest Sample.h ApiClient
           (Some Sample.nameless_ref) "myservice").
  simpl. left. reflexivity.
Defined.

(** C6.  When the fetch of the target fails with [e] (a fault of the
    environment, or the not-found error of a missing object),
    [EnsureTopologyRef] returns [e] itself with the empty hash.  The fetch is
    the only call made: no update, no copy, no hash.  The store is as it
    was, so no finalizer was added, and the object handed back carries no
    finalizer either. *)
Theorem fetch_error_returned_verbatim
    (ObjectHash_fn : TopologySpec → string * option error)
    (h : Helper) (r : TopologyRef) (finalizer : string)
    (defaultLabelSelector : LabelSelector)
    (defaultMatchLabelKeys : slice string) (w : World) (e : error) :
  valid_ref r →
  fetch_result (ref_Namespace r) (ref_Name r) w = inl e →
  ∃ p w',
    EnsureTopologyRef ObjectHash_fn h (Some r) finalizer
      defaultLabelSelector defaultMatchLabelKeys w =
      Some ((Some p, "", Some e), w') ∧
    events_of w w' = [EvGet (ref_Namespace r) (ref_Name r)] ∧
    objects w' = objects w ∧
    heap w' !! p = Some Topology_zero ∧
    (∀ q, q < length (heap w) → heap w' !! q = heap w !! q).
Proof.
  intros Hvalid Hfetch.
  rewrite EnsureTopologyRef_run by done. cbv zeta. rewrite Hfetch.
  eexists _, _. split; [reflexivity|]. cbn. repeat split.
  - by apply events_of_app.
  - apply lookup_snoc.
  - intros q Hq. by apply lookup_snoc_old.
Qed.

Lemma fetch_error_returned_verbatim_witness :
  ∃ p w',
    EnsureTopologyRef Sample.digest Sample.h (Some Sample.ref) "myservice"
      Sample.defaultLabelSelector Sample.defaultMatchLabelKeys Sample.empty =
      Some ((Some p, "", Some (StatusError StatusReasonNotFound "topo")), w') ∧
    events_of Sample.empty w' = [EvGet "openstack" "topo"] ∧
    objects w' = objects Sample.empty ∧
    heap w' !! p = Some Topology_zero ∧
    (∀ q, q < length (heap Sample.empty) → heap w' !! q = heap Sample.empty !! q).
Proof.
  apply (fetch_error_returned_verbatim Sample.digest Sample.h Sample.ref
           "myservice" Sample.defaultLabelSelector Sample.defaultMatchLabelKeys
           Sample.empty (StatusError StatusReasonNotFound "topo")).
  - split; discriminate.
  - vm_compute. reflexivity.
Defined.

(** C10.  Whenever [EnsureTopologyRef] returns a nil error, the object it
    returns carries the token [<owner-finalizer-prefix>-<suffix>] in its
    finalizer list. *)
Theorem success_carries_token
    (ObjectHash_fn : TopologySpec → string * option error)
    (h : Helper) (topologyRef : option TopologyRef) (finalizer : string)
    (defaultLabelSelector : LabelSelector)
    (defaultMatchLabelKeys : slice string)
    (w w' : World) (topology : option loc) (hash : string) :
  EnsureTopologyRef ObjectHash_fn h topologyRef finalizer
    defaultLabelSelector defaultMatchLabelKeys w =
    Some ((topology, hash, None), w') →
  ∃ p t,
    topology = Some p ∧ heap w' !! p = Some t ∧
    finalizer_token h finalizer ∈ Finalizers t.
Proof.
  destruct (ref_cases topologyRef) as [Hinv|(r & -> & Hvalid)].
  - rewrite EnsureTopologyRef_invalid by done. discriminate.
  - rewrite EnsureTopologyRef_run by done. cbv zeta.
    destruct (fetch_result _ _ w) as [e|s]; [discriminate|].
    destruct (decide (_ ∈ st_Finalizers s)) as [Hin|Hnin].
    + intros [= <- _ _ <-]. eexists _, _. split; [reflexivity|].
      split; [apply lookup_snoc2_last|]. done.
    + destruct (verdict 1 (faults w)); [discriminate|].
      intros [= <- _ _ <-]. eexists _, _. split; [reflexivity|].
      split; [apply lookup_snoc2_last|]. cbn.
      apply elem_of_app. right. by apply list_elem_of_singleton.
Qed.

Lemma success_carries_token_witness :
  ∃ p t,
    Some 1 = Some p ∧ heap Sample.after_attach !! p = Some t ∧
    finalizer_token Sample.h "myservice" ∈ Finalizers t.
Proof.
  apply (success_carries_token Sample.digest Sample.h (Some Sample.ref)
           "myservice" Sample.defaultLabelSelector Sample.defaultMatchLabelKeys
           Sample.unattached Sample.after_attach (Some 1)
           "n5d8h66dh5c9h5f5h64bh5b7h5f8q").
  vm_compute. reflexivity.
Defined.

(** C1.  For every Topology the fetch returns, once the finalizer step has
    not failed (the token was there, or the update went through),
    [EnsureTopologyRef] hands back an object whose spec is the fetched spec
    with the fill-missing-only policy applied: in every spread constraint
    and in every required and preferred term of pod affinity and pod
    anti-affinity an unset label selector becomes [defaultLabelSelector], an
    empty match-label-keys list becomes [defaultMatchLabelKeys], and a field
    that is set, like every other field, is as it was fetched, whatever the
    defaults are. *)
Theorem defaults_fill_missing_only
    (ObjectHash_fn : TopologySpec → string * option error)
    (h : Helper) (r : TopologyRef) (finalizer : string)
    (defaultLabelSelector : LabelSelector)
    (defaultMatchLabelKeys : slice string) (w : World) (s : Stored) :
  valid_ref r →
  fetch_result (ref_Namespace r) (ref_Name r) w = inr s →
  finalizer_token h finalizer ∈ st_Finalizers s ∨ verdict 1 (faults w) = None →
  ∃ p hash err w' t,
    EnsureTopologyRef ObjectHash_fn h (Some r) finalizer
      defaultLabelSelector defaultMatchLabelKeys w =
      Some ((Some p, hash, err), w') ∧
    heap w' !! p = Some t ∧
    spec_filled defaultLabelSelector defaultMatchLabelKeys (st_Spec s) (Spec t).
Proof.
  intros Hvalid Hfetch Hstep.
  rewrite EnsureTopologyRef_run by done. cbv zeta. rewrite Hfetch.
  destruct (decide (_ ∈ st_Finalizers s)) as [Hin|Hnin].
  - eexists _, _, _, _, _. split; [reflexivity|].
    split; [apply lookup_snoc2_last|]. apply applyDefaults_filled.
  - destruct Hstep as [?|Hok]; [done|]. rewrite Hok.
    eexists _, _, _, _, _. split; [reflexivity|].
    split; [apply lookup_snoc2_last|]. apply applyDefaults_filled.
Qed.

Lemma defaults_fill_missing_only_witness :
  ∃ p hash err w' t,
    EnsureTopologyRef Sample.digest Sample.h (Some Sample.ref) "myservice"
      Sample.defaultLabelSelector Sample.defaultMatchLabelKeys Sample.unattached =
      Some ((Some p, hash, err), w') ∧
    heap w' !! p = Some t ∧
    spec_filled Sample.defaultLabelSelector Sample.defaultMatchLabelKeys
      Sample.spec (Spec t).
Proof.
  apply (defaults_fill_missing_only Sample.digest Sample.h Sample.ref
           "myservice" Sample.defaultLabelSelector Sample.defaultMatchLabelKeys
           Sample.unattached
           {| st_Finalizers := []; st_Spec := Sample.spec |}).
  - split; discriminate.
  - vm_compute. reflexivity.
  - right. reflexivity.
Defined.

(** C8.  When the hash of the defaulted copy's spec fails with [e],
    [EnsureTopologyRef] returns [e] itself together with the defaulted copy
    and the hash string that came with the error, which is empty by the
    contract of the digest.  The copy is not persisted: the stored spec is
    still the one that was fetched. *)
Theorem hash_error_returned_verbatim
    (ObjectHash_fn : TopologySpec → string * option error)
    (h : Helper) (r : TopologyRef) (finalizer : string)
    (defaultLabelSelector : LabelSelector)
    (defaultMatchLabelKeys : slice string) (w : World) (s : Stored)
    (g : string) (e : error) :
  hash_error_contract ObjectHash_fn →
  valid_ref r →
  fetch_result (ref_Namespace r) (ref_Name r) w = inr s →
  finalizer_token h finalizer ∈ st_Finalizers s ∨ verdict 1 (faults w) = None →
  ObjectHash_fn
    (applyDefaults defaultLabelSelector defaultMatchLabelKeys (st_Spec s)) =
    (g, Some e) →
  ∃ p w' t,
    EnsureTopologyRef ObjectHash_fn h (Some r) finalizer
      defaultLabelSelector defaultMatchLabelKeys w =
      Some ((Some p, "", Some e), w') ∧
    heap w' !! p = Some t ∧
    Spec t = applyDefaults defaultLabelSelector defaultMatchLabelKeys (st_Spec s) ∧
    st_Spec <$> objects w' !! (ref_Namespace r, ref_Name r) = Some (st_Spec s).
Proof.
  intros Hcontract Hvalid Hfetch Hstep Hhash.
  pose proof (Hcontract _ _ _ Hhash) as ->.
  destruct (fetch_result_found _ _ _ _ Hfetch) as [_ Hobj].
  rewrite EnsureTopologyRef_run by done. cbv zeta. rewrite Hfetch.
  destruct (decide (_ ∈ st_Finalizers s)) as [Hin|Hnin].
  - cbn. rewrite Hhash. eexists _, _, _. split; [reflexivity|]. cbn.
    split; [apply lookup_snoc2_last|]. split; [done|]. by rewrite Hobj.
  - destruct Hstep as [?|Hok]; [done|]. rewrite Hok. cbn. rewrite Hhash.
    eexists _, _, _. split; [reflexivity|]. cbn.
    split; [apply lookup_snoc2_last|]. split; [done|].
    by rewrite lookup_insert_eq.
Qed.

Lemma hash_error_returned_verbatim_witness :
  ∃ p w' t,
    EnsureTopologyRef Sample.failing_digest Sample.h (Some Sample.ref)
      "myservice" Sample.defaultLabelSelector Sample.defaultMatchLabelKeys
      Sample.unattached =
      Some ((Some p, "", Some (Errorf "unable to convert to JSON")), w') ∧
    heap w' !! p = Some t ∧
    Spec t =
      applyDefaults Sample.defaultLabelSelector Sample.defaultMatchLabelKeys
        Sample.spec ∧
    st_Spec <$> objects w' !! ("openstack", "topo") = Some Sample.spec.
Proof.
  apply (hash_error_returned_verbatim Sample.failing_digest Sample.h Sample.ref
           "myservice" Sample.defaultLabelSelector Sample.defaultMatchLabelKeys
           Sample.unattached
           {| st_Finalizers := []; st_Spec := Sample.spec |}
           "" (Errorf "unable to convert to JSON")).
  - intros spec g e. unfold Sample.failing_digest. intros [= <- _]. reflexivity.
  - split; discriminate.
  - vm_compute. reflexivity.
  - right. reflexivity.
  - reflexivity.
Defined.

(** Splits a run of [EnsureTopologyRef] on a valid reference into its four
    paths: fetch failed, token already there, update failed, token added. *)
Ltac attach_paths w s e Hfetch Htoken Hverdict :=
  rewrite EnsureTopologyRef_run by done; cbv zeta;
  destruct (fetch_result _ _ w) as [e|s] eqn:Hfetch;
  [| destruct (decide (_ ∈ st_Finalizers s)) as [Htoken|Htoken];
     [| destruct (verdict 1 (faults w)) as [e|] eqn:Hverdict ] ].

Ltac trace_shape :=
  cbn; rewrite <- ?app_assoc; reflexivity.

Lemma stored_spec_insert
    (objs : gmap (string * string) Stored) (key key' : string * string)
    (s s' : Stored) :
  objs !! key = Some s → st_Spec s' = st_Spec s →
  st_Spec <$> <[key := s']> objs !! key' = st_Spec <$> objs !! key'.
Proof.
  intros Hs Hspec. destruct (decide (key = key')) as [<-|Hne].
  - rewrite lookup_insert_eq, Hs. simpl. by rewrite Hspec.
  - by rewrite lookup_insert_ne.
Qed.

(** C4.  Every execution of [EnsureTopologyRef] returns, and in it:
    - at most one update is issued;
    - the spec the API server holds under every key is the one it held
      before, so the defaults are never persisted;
    - every object that was in memory before the call is untouched;
    - the object the fetch returned keeps the spec it was fetched with, and
      on success the object handed back is another one: the defaults went
      to a copy. *)
Theorem one_update_defaults_not_persisted
    (ObjectHash_fn : TopologySpec → string * option error)
    (h : Helper) (topologyRef : option TopologyRef) (finalizer : string)
    (defaultLabelSelector : LabelSelector)
    (defaultMatchLabelKeys : slice string) (w : World) :
  ∃ res w',
    EnsureTopologyRef ObjectHash_fn h topologyRef finalizer
      defaultLabelSelector defaultMatchLabelKeys w = Some (res, w') ∧
    length (updates (events_of w w')) ≤ 1 ∧
    (∀ key, st_Spec <$> objects w' !! key = st_Spec <$> objects w !! key) ∧
    (∀ q, q < length (heap w) → heap w' !! q = heap w !! q) ∧
    (∀ r p g w1,
       topologyRef = Some r → valid_ref r →
       GetTopologyByName h (ref_Name r) (ref_Namespace r) w =
         Some ((p, g, None), w1) →
       ∃ o t,
         heap w1 !! p = Some o ∧ heap w' !! p = Some t ∧ Spec t = Spec o ∧
         (∀ p' hash, res = (Some p', hash, None) → p' ≠ p)).
Proof.
  destruct (ref_cases topologyRef) as [Hinv|(r & -> & Hvalid)].
  { rewrite EnsureTopologyRef_invalid by done.
    eexists _, _. split; [reflexivity|].
    rewrite (events_of_app w w []) by (by rewrite app_nil_r).
    repeat split; [simpl; lia|].
    intros r p g w1 -> [Hn Hs]. simpl in Hinv. by destruct Hinv. }
  assert (∀ r' p g w1 (P : Topology → loc → Prop),
            Some r = Some r' →
            (∀ s, fetch_result (ref_Namespace r) (ref_Name r) w = inr s →
                  P (to_object (ref_Namespace r) (ref_Name r) s)
                    (length (heap w))) →
            GetTopologyByName h (ref_Name r') (ref_Namespace r') w =
              Some ((p, g, None), w1) →
            ∃ o, heap w1 !! p = Some o ∧ P o p) as Hfetched.
  { intros r' p g w1 P [= <-] HP. rewrite GetTopologyByName_run.
    destruct (fetch_result _ _ w) as [e|s]; [discriminate|].
    intros [= <- _ <-]. eexists. split; [apply lookup_snoc|]. by apply HP. }
  attach_paths w s e Hfetch Htoken Hverdict.
  - eexists _, _. split; [reflexivity|].
    erewrite events_of_app by trace_shape.
    cbn. repeat split; [lia| |].
    + intros q Hq. by apply lookup_snoc_old.
    + intros r' p g w1 Hr _ Hget.
      destruct (Hfetched r' p g w1 (λ _ _, False) Hr) as (? & _ & []); [|done].
      intros s. discriminate.
  - eexists _, _. split; [reflexivity|].
    erewrite events_of_app by trace_shape.
    cbn. repeat split; [lia| |].
    + intros q Hq. by apply lookup_snoc2_old.
    + intros r' p g w1 Hr _ Hget.
      destruct (Hfetched r' p g w1
                  (λ o p, o = to_object (ref_Namespace r) (ref_Name r) s ∧
                          p = length (heap w)) Hr)
        as (o & Ho & -> & ->); [|done|].
      { by intros s' [= <-]. }
      eexists _, _. split; [done|]. split; [apply lookup_snoc2_first|].
      split; [done|]. intros p' hash [= <- _ _]. lia.
  - eexists _, _. split; [reflexivity|].
    erewrite events_of_app by trace_shape.
    cbn. repeat split; [lia| |].
    + intros q Hq. by apply lookup_snoc_old.
    + intros r' p g w1 Hr _ Hget.
      destruct (Hfetched r' p g w1
                  (λ o p, o = to_object (ref_Namespace r) (ref_Name r) s ∧
                          p = length (heap w)) Hr)
        as (o & Ho & -> & ->); [|done|].
      { by intros s' [= <-]. }
      eexists _, _. split; [done|]. split; [apply lookup_snoc|].
      split; [done|]. intros p' hash. discriminate.
  - destruct (fetch_result_found _ _ _ _ Hfetch) as [_ Hobj].
    eexists _, _. split; [reflexivity|].
    erewrite events_of_app by trace_shape.
    cbn. repeat split; [lia| | |].
    + intros key. by apply (stored_spec_insert _ _ _ s).
    + intros q Hq. by apply lookup_snoc2_old.
    + intros r' p g w1 Hr _ Hget.
      destruct (Hfetched r' p g w1
                  (λ o p, o = to_object (ref_Namespace r) (ref_Name r) s ∧
                          p = length (heap w)) Hr)
        as (o & Ho & -> & ->); [|done|].
      { by intros s' [= <-]. }
      eexists _, _. split; [done|]. split; [apply lookup_snoc2_first|].
      split; [done|]. intros p' hash [= <- _ _]. lia.
Qed.

(** Membership of an update in a short, explicit list of events. *)
Ltac find_update H :=
  repeat (apply elem_of_cons in H as [H|H];
          [first [discriminate H | injection H as H; subst] | ]);
  try (by apply elem_of_nil in H).

(** C5.  On a valid reference every execution of [EnsureTopologyRef]
    returns, and whenever it issues the update:
    - the update is the call right after the fetch, the object it sends has
      the token and the spec exactly as fetched (no default has been
      filled yet), and no other update follows;
    - if the update goes through, the stored object holds the token when
      the function returns, also when a later step (the hash) fails;
    - if the update fails with [e], the function returns [e] itself with
      the empty hash and the fetched object, and the fetch and the update
      are the only calls made: no copy, no hash. *)
Theorem update_precedes_defaults
    (ObjectHash_fn : TopologySpec → string * option error)
    (h : Helper) (r : TopologyRef) (finalizer : string)
    (defaultLabelSelector : LabelSelector)
    (defaultMatchLabelKeys : slice string) (w : World) :
  valid_ref r →
  ∃ res w',
    EnsureTopologyRef ObjectHash_fn h (Some r) finalizer
      defaultLabelSelector defaultMatchLabelKeys w = Some (res, w') ∧
    ∀ o, EvUpdate o ∈ events_of w w' →
      (∃ s rest,
         fetch_result (ref_Namespace r) (ref_Name r) w = inr s ∧
         events_of w w' =
           EvGet (ref_Namespace r) (ref_Name r) :: EvUpdate o :: rest ∧
         Spec o = st_Spec s ∧
         finalizer_token h finalizer ∈ Finalizers o ∧
         updates rest = []) ∧
      (verdict 1 (faults w) = None →
         finalizer_token h finalizer ∈
           stored_finalizers (ref_Namespace r) (ref_Name r) w') ∧
      (∀ e, verdict 1 (faults w) = Some e →
         ∃ p,
           res = (Some p, "", Some e) ∧
           events_of w w' =
             [EvGet (ref_Namespace r) (ref_Name r); EvUpdate o] ∧
           heap w' !! p = Some o).
Proof.
  intros Hvalid. attach_paths w s e Hfetch Htoken Hverdict;
    (eexists _, _; split; [reflexivity|]);
    erewrite events_of_app by trace_shape; intros o Ho; find_update Ho.
  - split; [|split].
    + eexists s, _. repeat split. cbn.
      apply elem_of_app. right. by apply list_elem_of_singleton.
    + discriminate.
    + intros e' [= <-]. eexists. repeat split. cbn. apply lookup_snoc.
  - split; [|split].
    + eexists s, _. repeat split. cbn.
      apply elem_of_app. right. by apply list_elem_of_singleton.
    + intros _. unfold stored_finalizers. cbn. rewrite lookup_insert_eq. cbn.
      apply elem_of_app. right. by apply list_elem_of_singleton.
    + discriminate.
Qed.

Lemma update_precedes_defaults_witness :
  ∃ res w',
    EnsureTopologyRef Sample.failing_digest Sample.h (Some Sample.ref)
      "myservice" Sample.defaultLabelSelector Sample.defaultMatchLabelKeys
      Sample.contended = Some (res, w') ∧
    ∀ o, EvUpdate o ∈ events_of Sample.contended w' →
      (∃ s rest,
         fetch_result "openstack" "topo" Sample.contended = inr s ∧
         events_of Sample.contended w' =
           EvGet "openstack" "topo" :: EvUpdate o :: rest ∧
         Spec o = st_Spec s ∧
         finalizer_token Sample.h "myservice" ∈ Finalizers o ∧
         updates rest = []) ∧
      (verdict 1 (faults Sample.contended) = None →
         finalizer_token Sample.h "myservice" ∈
           stored_finalizers "openstack" "topo" w') ∧
      (∀ e, verdict 1 (faults Sample.contended) = Some e →
         ∃ p,
           res = (Some p, "", Some e) ∧
           events_of Sample.contended w' =
             [EvGet "openstack" "topo"; EvUpdate o] ∧
           heap w' !! p = Some o).
Proof.
  apply (update_precedes_defaults Sample.failing_digest Sample.h Sample.ref
           "myservice" Sample.defaultLabelSelector Sample.defaultMatchLabelKeys
           Sample.contended).
  split; discriminate.
Defined.

Lemma fetch_result_intro (namespace name : string) (w : World) (s : Stored) :
  verdict 0 (faults w) = None → objects w !! (namespace, name) = Some s →
  fetch_result namespace name w = inr s.
Proof. intros Hv Hs. unfold fetch_result. by rewrite Hv, Hs. Qed.

(** A run on a world whose stored object already holds the token: fetch,
    copy, hash, and nothing else. *)
Lemma EnsureTopologyRef_present
    (ObjectHash_fn : TopologySpec → string * option error)
    (h : Helper) (r : TopologyRef) (finalizer : string)
    (defaultLabelSelector : LabelSelector)
    (defaultMatchLabelKeys : slice string) (w : World) (s : Stored) :
  valid_ref r →
  fetch_result (ref_Namespace r) (ref_Name r) w = inr s →
  finalizer_token h finalizer ∈ st_Finalizers s →
  let o := to_object (ref_Namespace r) (ref_Name r) s in
  let spec' := applyDefaults defaultLabelSelector defaultMatchLabelKeys (st_Spec s) in
  ∃ w',
    EnsureTopologyRef ObjectHash_fn h (Some r) finalizer
      defaultLabelSelector defaultMatchLabelKeys w =
      Some ((Some (S (length (heap w))),
             (ObjectHash_fn spec').1, (ObjectHash_fn spec').2), w') ∧
    events_of w w' =
      [EvGet (ref_Namespace r) (ref_Name r); EvDeepCopy o; EvHash spec'] ∧
    objects w' = objects w.
Proof.
  intros Hvalid Hfetch Hin o spec'.
  rewrite EnsureTopologyRef_run by done. cbv zeta. rewrite Hfetch.
  rewrite decide_True by done.
  eexists. split; [reflexivity|]. split; [|done].
  erewrite events_of_app by trace_shape. done.
Qed.

(** A call that returned a nil error leaves the token in the store, next
    to the spec whose defaulted form it hashed. *)
Lemma success_leaves_token_stored
    (ObjectHash_fn : TopologySpec → string * option error)
    (h : Helper) (r : TopologyRef) (finalizer : string)
    (defaultLabelSelector : LabelSelector)
    (defaultMatchLabelKeys : slice string)
    (w w1 : World) (topology : option loc) (hash : string) :
  valid_ref r →
  EnsureTopologyRef ObjectHash_fn h (Some r) finalizer
    defaultLabelSelector defaultMatchLabelKeys w =
    Some ((topology, hash, None), w1) →
  ∃ s1,
    objects w1 !! (ref_Namespace r, ref_Name r) = Some s1 ∧
    finalizer_token h finalizer ∈ st_Finalizers s1 ∧
    ObjectHash_fn
      (applyDefaults defaultLabelSelector defaultMatchLabelKeys (st_Spec s1)) =
      (hash, None).
Proof.
  intros Hvalid.
  attach_paths w s e Hfetch Htoken Hverdict; try discriminate;
    intros [= <- Hhash Herr <-]; cbn;
    destruct (fetch_result_found _ _ _ _ Hfetch) as [_ Hobj].
  - exists s. split; [done|]. split; [done|].
    destruct (ObjectHash_fn _); simpl in *; congruence.
  - eexists. split; [apply lookup_insert_eq|]. cbn. split.
    + apply elem_of_app. right. by apply list_elem_of_singleton.
    + destruct (ObjectHash_fn _); simpl in *; congruence.
Qed.

(** C2.  On a valid reference whose target the fetch returns,
    [EnsureTopologyRef] issues the update if and only if the token was not
    in the fetched finalizer list.  After a call that returned a nil error,
    a second call with the same reference and suffix, whose fetch the
    environment lets through, finds the token, issues no update, goes
    straight to copying, default-filling and hashing, and leaves the store
    as it is; called with the same defaults it returns a nil error and the
    same hash. *)
Theorem update_iff_token_absent
    (ObjectHash_fn : TopologySpec → string * option error)
    (h : Helper) (r : TopologyRef) (finalizer : string)
    (defaultLabelSelector : LabelSelector)
    (defaultMatchLabelKeys : slice string) (w : World) :
  valid_ref r →
  (∀ s, fetch_result (ref_Namespace r) (ref_Name r) w = inr s →
     ∃ res w',
       EnsureTopologyRef ObjectHash_fn h (Some r) finalizer
         defaultLabelSelector defaultMatchLabelKeys w = Some (res, w') ∧
       ((∃ o, EvUpdate o ∈ events_of w w') ↔
        finalizer_token h finalizer ∉ st_Finalizers s)) ∧
  (∀ topology hash w1,
     EnsureTopologyRef ObjectHash_fn h (Some r) finalizer
       defaultLabelSelector defaultMatchLabelKeys w =
       Some ((topology, hash, None), w1) →
     verdict 0 (faults w1) = None →
     ∀ defaultLabelSelector2 defaultMatchLabelKeys2,
     ∃ topology2 hash2 err2 w2 o spec',
       EnsureTopologyRef ObjectHash_fn h (Some r) finalizer
         defaultLabelSelector2 defaultMatchLabelKeys2 w1 =
         Some ((topology2, hash2, err2), w2) ∧
       finalizer_token h finalizer ∈ Finalizers o ∧
       events_of w1 w2 =
         [EvGet (ref_Namespace r) (ref_Name r); EvDeepCopy o; EvHash spec'] ∧
       updates (events_of w1 w2) = [] ∧
       objects w2 = objects w1 ∧
       (defaultLabelSelector2 = defaultLabelSelector →
        defaultMatchLabelKeys2 = defaultMatchLabelKeys →
        err2 = None ∧ hash2 = hash)).
Proof.
  intros Hvalid. split.
  - intros s0 Hs0.
    attach_paths w s e Hfetch Htoken Hverdict; try discriminate;
      injection Hs0 as <-;
      (eexists _, _; split; [reflexivity|]);
      erewrite events_of_app by trace_shape.
    + split; [|done]. intros [o Ho]. find_update Ho.
    + split; [done|]. intros _. eexists. apply elem_of_cons. right.
      apply elem_of_cons. by left.
    + split; [done|]. intros _. eexists. apply elem_of_cons. right.
      apply elem_of_cons. by left.
  - intros topology hash w1 Hrun1 Hv dls2 dmlk2.
    destruct (success_leaves_token_stored _ _ _ _ _ _ _ _ _ _ Hvalid Hrun1)
      as (s1 & Hobj1 & Htoken1 & Hhash1).
    destruct (EnsureTopologyRef_present ObjectHash_fn h r finalizer dls2 dmlk2
                w1 s1 Hvalid)
      as (w2 & Hrun2 & Hev & Hobjs); [by apply fetch_result_intro|done|].
    eexists _, _, _, w2, (to_object (ref_Namespace r) (ref_Name r) s1), _.
    split; [exact Hrun2|].
    split; [exact Htoken1|]. split; [exact Hev|]. rewrite Hev.
    split; [done|]. split; [exact Hobjs|].
    intros -> ->. by rewrite Hhash1.
Qed.

Lemma update_iff_token_absent_witness :
  (∃ res w',
     EnsureTopologyRef Sample.digest Sample.h (Some Sample.ref) "myservice"
       Sample.defaultLabelSelector Sample.defaultMatchLabelKeys
       Sample.unattached = Some (res, w') ∧
     ((∃ o, EvUpdate o ∈ events_of Sample.unattached w') ↔
      finalizer_token Sample.h "myservice" ∉ [])) ∧
  (∃ topology2 hash2 w2,
     EnsureTopologyRef Sample.digest Sample.h (Some Sample.ref) "myservice"
       Sample.defaultLabelSelector Sample.defaultMatchLabelKeys
       Sample.after_attach = Some ((topology2, hash2, None), w2) ∧
     updates (events_of Sample.after_attach w2) = [] ∧
     objects w2 = objects Sample.after_attach).
Proof.
  destruct (update_iff_token_absent Sample.digest Sample.h Sample.ref
              "myservice" Sample.defaultLabelSelector
              Sample.defaultMatchLabelKeys Sample.unattached)
    as [Hfirst Hsecond]; [split; discriminate|].
  split.
  - apply (Hfirst {| st_Finalizers := []; st_Spec := Sample.spec |}).
    vm_compute. reflexivity.
  - destruct (Hsecond (Some 1) "n5d8h66dh5c9h5f5h64bh5b7h5f8q"
                Sample.after_attach)
      with (defaultLabelSelector2 := Sample.defaultLabelSelector)
           (defaultMatchLabelKeys2 := Sample.defaultMatchLabelKeys)
      as (topology2 & hash2 & err2 & w2 & o & spec' &
          Hrun & _ & _ & Hupdates & Hobjects & Hsame).
    + vm_compute. reflexivity.
    + vm_compute. reflexivity.
    + destruct Hsame as [-> _]; [reflexivity | reflexivity |].
      exists topology2, hash2, w2. auto.
Defined.

(** C7.  On a valid reference [EnsureDeletedTopologyRef] returns, and:
    - a fetch that fails with not-found gives a nil error, with no call
      after the fetch and the store as it was;
    - a fetch that fails with any other error gives that error;
    - when the fetch succeeds and the token is present, the update is issued
      with the token removed from the object; if it goes through, the
      object is stored without the token and the error is nil; a not-found
      error of the update gives a nil error as well; any other error of
      the update is returned;
    - when the fetch succeeds and the token is absent, nothing is updated
      and the error is nil. *)
Theorem detach_error_handling
    (h : Helper) (c : Client) (r : TopologyRef) (finalizer : string)
    (w : World) :
  valid_ref r →
  ∃ res w',
    EnsureDeletedTopologyRef h c (Some r) finalizer w = Some (res, w') ∧
    (∀ e, fetch_result (ref_Namespace r) (ref_Name r) w = inl e →
       IsNotFound (Some e) = true →
       res = (Result_zero, None) ∧
       events_of w w' = [EvGet (ref_Namespace r) (ref_Name r)] ∧
       objects w' = objects w) ∧
    (∀ e, fetch_result (ref_Namespace r) (ref_Name r) w = inl e →
       IsNotFound (Some e) = false →
       res = (Result_zero, Some e) ∧
       events_of w w' = [EvGet (ref_Namespace r) (ref_Name r)] ∧
       objects w' = objects w) ∧
    (∀ s, fetch_result (ref_Namespace r) (ref_Name r) w = inr s →
       finalizer_token h finalizer ∈ st_Finalizers s →
       ∃ o rest,
         events_of w w' =
           EvGet (ref_Namespace r) (ref_Name r) :: EvUpdate o :: rest ∧
         updates rest = [] ∧
         (finalizer_token h finalizer ∉ Finalizers o) ∧
         Spec o = st_Spec s ∧
         (verdict 1 (faults w) = None →
            res = (Result_zero, None) ∧
            objects w' !! (ref_Namespace r, ref_Name r) = Some (to_stored o)) ∧
         (∀ e, verdict 1 (faults w) = Some e →
            objects w' = objects w ∧
            (IsNotFound (Some e) = true → res = (Result_zero, None)) ∧
            (IsNotFound (Some e) = false → res = (Result_zero, Some e)))) ∧
    (∀ s, fetch_result (ref_Namespace r) (ref_Name r) w = inr s →
       finalizer_token h finalizer ∉ st_Finalizers s →
       res = (Result_zero, None) ∧
       events_of w w' = [EvGet (ref_Namespace r) (ref_Name r)] ∧
       objects w' = objects w).
Proof.
  intros Hvalid. rewrite EnsureDeletedTopologyRef_run by done. cbv zeta.
  assert (∀ l : list string,
            finalizer_token h finalizer ∉
              filter (λ e, e ≠ finalizer_token h finalizer) l) as Hgone.
  { intros l Hin. apply list_elem_of_filter in Hin as [Hne _]. by apply Hne. }
  destruct (fetch_result _ _ w) as [e|s] eqn:Hfetch.
  - eexists _, _. split; [reflexivity|].
    erewrite events_of_app by trace_shape.
    split; [|split; [|split]]; try discriminate;
      intros e' [= <-] Hnf; by rewrite Hnf.
  - destruct (decide (_ ∈ st_Finalizers s)) as [Htoken|Htoken].
    + destruct (verdict 1 (faults w)) as [e|] eqn:Hverdict.
      * destruct (IsNotFound (Some e)) eqn:Hnf;
          (eexists _, _; split; [reflexivity|]);
          erewrite events_of_app by trace_shape;
          (split; [discriminate|]); (split; [discriminate|]);
          (split; [|intros s' [= <-] ?; done]);
          intros s' [= <-] _; eexists _, _; (split; [reflexivity|]);
          (split; [reflexivity|]); (split; [apply Hgone|]);
          (split; [reflexivity|]); (split; [discriminate|]);
          intros e' [= <-]; cbn; repeat split; congruence.
      * eexists _, _. split; [reflexivity|].
        erewrite events_of_app by trace_shape.
        split; [discriminate|]. split; [discriminate|].
        split; [|intros s' [= <-] ?; done].
        intros s' [= <-] _. eexists _, _. split; [reflexivity|].
        split; [reflexivity|]. split; [apply Hgone|].
        split; [reflexivity|]. split; [|discriminate].
        intros _. split; [done|]. cbn. apply lookup_insert_eq.
    + eexists _, _. split; [reflexivity|].
      erewrite events_of_app by trace_shape.
      split; [discriminate|]. split; [discriminate|].
      split; [intros s' [= <-] ?; done|].
      intros s' [= <-] _. done.
Qed.

Lemma detach_error_handling_witness :
  ∃ w',
    EnsureDeletedTopologyRef Sample.h ApiClient (Some Sample.ref) "myservice"
      Sample.vanishing = Some ((Result_zero, None), w') ∧
    objects w' = objects Sample.vanishing.
Proof.
  destruct (detach_error_handling Sample.h ApiClient Sample.ref "myservice"
              Sample.vanishing)
    as (res & w' & Hrun & _ & _ & Hpresent & _); [split; discriminate|].
  destruct (Hpresent {| st_Finalizers := ["svc-operator-myservice"];
                        st_Spec := Sample.spec |})
    as (o & rest & _ & _ & _ & _ & _ & Hfailed).
  - vm_compute. reflexivity.
  - vm_compute. apply elem_of_cons. left. reflexivity.
  - destruct (Hfailed Sample.gone) as (Hobjects & Htolerated & _).
    + vm_compute. reflexivity.
    + exists w'. rewrite <- Htolerated; [auto | reflexivity].
Defined.

(** ** The hash depends on the defaulted spec only *)

(** On success the hash returned is the digest of the spec of the object
    returned, that is, of the spec after default-filling. *)
Lemma hash_is_digest_of_returned_spec
    (ObjectHash_fn : TopologySpec → string * option error)
    (h : Helper) (topologyRef : option TopologyRef) (finalizer : string)
    (defaultLabelSelector : LabelSelector)
    (defaultMatchLabelKeys : slice string)
    (w w' : World) (p : loc) (hash : string) :
  EnsureTopologyRef ObjectHash_fn h topologyRef finalizer
    defaultLabelSelector defaultMatchLabelKeys w =
    Some ((Some p, hash, None), w') →
  ∃ t, heap w' !! p = Some t ∧ ObjectHash_fn (Spec t) = (hash, None).
Proof.
  destruct (ref_cases topologyRef) as [Hinv|(r & -> & Hvalid)].
  { rewrite EnsureTopologyRef_invalid by done. discriminate. }
  attach_paths w s e Hfetch Htoken Hverdict; try discriminate;
    intros [= <- Hhash Herr <-]; eexists;
    (split; [apply lookup_snoc2_last|]); cbn;
    destruct (ObjectHash_fn _); simpl in *; congruence.
Qed.

(** Two successful calls, whatever their worlds, references, suffixes and
    defaults, return the same hash as soon as the objects they return have
    the same spec. *)
Lemma equal_defaulted_specs_equal_hashes
    (ObjectHash_fn : TopologySpec → string * option error)
    (h1 h2 : Helper) (ref1 ref2 : option TopologyRef)
    (finalizer1 finalizer2 : string)
    (selector1 selector2 : LabelSelector) (keys1 keys2 : slice string)
    (w1 w1' w2 w2' : World) (p1 p2 : loc) (hash1 hash2 : string)
    (t1 t2 : Topology) :
  EnsureTopologyRef ObjectHash_fn h1 ref1 finalizer1 selector1 keys1 w1 =
    Some ((Some p1, hash1, None), w1') →
  EnsureTopologyRef ObjectHash_fn h2 ref2 finalizer2 selector2 keys2 w2 =
    Some ((Some p2, hash2, None), w2') →
  heap w1' !! p1 = Some t1 → heap w2' !! p2 = Some t2 →
  Spec t1 = Spec t2 → hash1 = hash2.
Proof.
  intros Hrun1 Hrun2 Ht1 Ht2 Hspec.
  apply hash_is_digest_of_returned_spec in Hrun1 as (t1' & Ht1' & Hhash1).
  apply hash_is_digest_of_returned_spec in Hrun2 as (t2' & Ht2' & Hhash2).
  simplify_eq. congruence.
Qed.

(** * Further properties of the code *)

(** ** Default-filling over the entries *)

Lemma entries_for_range {A : Type} (body : A → A) (s : slice A) :
  entries (for_range body s) = body <$> entries s.
Proof. rewrite for_range_fmap. by destruct s. Qed.

Lemma constraints_of_applyDefaults
    (d : LabelSelector) (k : slice string) (spec : TopologySpec) :
  constraints_of (applyDefaults d k spec) =
  defaultConstraint d k <$> constraints_of spec.
Proof.
  unfold constraints_of. destruct spec as [[s|] aff]; simpl; [|done].
  rewrite for_range_fmap. by destruct s.
Qed.

Lemma terms_of_applyDefaults
    (d : LabelSelector) (k : slice string) (spec : TopologySpec) :
  terms_of (applyDefaults d k spec) = defaultTerm d k <$> terms_of spec.
Proof.
  unfold terms_of. destruct spec as [cs [[na pa paa]|]]; simpl; [|done].
  rewrite fmap_app. f_equal.
  - destruct pa as [[req pref]|]; simpl; [|done].
    rewrite !entries_for_range, fmap_app, <- !list_fmap_compose. done.
  - destruct paa as [[req pref]|]; simpl; [|done].
    rewrite !entries_for_range, fmap_app, <- !list_fmap_compose. done.
Qed.

Lemma defaultConstraint_idem
    (d : LabelSelector) (k : slice string) (c : TopologySpreadConstraint) :
  defaultConstraint d k (defaultConstraint d k c) = defaultConstraint d k c.
Proof.
  unfold defaultConstraint.
  destruct c as [ms tk wu [sel|] md nap ntp keys]; simpl;
    repeat (case_decide; simpl in * ); congruence.
Qed.

Lemma defaultTerm_idem
    (d : LabelSelector) (k : slice string) (t : PodAffinityTerm) :
  defaultTerm d k (defaultTerm d k t) = defaultTerm d k t.
Proof.
  unfold defaultTerm.
  destruct t as [[sel|] ns tk nsel keys mkeys]; simpl;
    repeat (case_decide; simpl in * ); congruence.
Qed.

Lemma for_range_idem {A : Type} (body : A → A) (s : slice A) :
  (∀ x, body (body x) = body x) →
  for_range body (for_range body s) = for_range body s.
Proof.
  intros Hidem. rewrite !for_range_fmap. destruct s as [l|]; [|done].
  f_equal. rewrite <- list_fmap_compose. apply list_fmap_ext.
  intros i x _. apply Hidem.
Qed.

(** X1.  Default-filling is idempotent: filling the defaults into a spec
    that went through the pass already, with the same defaults, changes
    nothing, also when the default list of keys is itself empty. *)
Theorem applyDefaults_idempotent
    (d : LabelSelector) (k : slice string) (spec : TopologySpec) :
  applyDefaults d k (applyDefaults d k spec) = applyDefaults d k spec.
Proof.
  assert (∀ w, defaultWeighted d k (defaultWeighted d k w) = defaultWeighted d k w)
    as Hw.
  { intros w. unfold defaultWeighted. simpl. by rewrite defaultTerm_idem. }
  destruct spec as [cs aff]. unfold applyDefaults. simpl. f_equal.
  - destruct cs as [s|]; [|done]. f_equal.
    apply for_range_idem, defaultConstraint_idem.
  - destruct aff as [[na pa paa]|]; [|done]. simpl. f_equal.
    unfold defaultAffinity. simpl. f_equal.
    + destruct pa as [[req pref]|]; [|done]. simpl. f_equal.
      unfold defaultPodAffinity. simpl. f_equal.
      * apply for_range_idem, defaultTerm_idem.
      * by apply for_range_idem.
    + destruct paa as [[req pref]|]; [|done]. simpl. f_equal.
      unfold defaultPodAntiAffinity. simpl. f_equal.
      * apply for_range_idem, defaultTerm_idem.
      * by apply for_range_idem.
Qed.

Lemma defaultConstraint_complete
    (d : LabelSelector) (k : slice string) (c : TopologySpreadConstraint) :
  constraint_complete c → defaultConstraint d k c = c.
Proof.
  intros [[sel Hsel] Hkeys]. unfold defaultConstraint.
  destruct c as [ms tk wu osel md nap ntp keys]. simpl in *. subst osel.
  by rewrite decide_False.
Qed.

Lemma defaultTerm_complete
    (d : LabelSelector) (k : slice string) (t : PodAffinityTerm) :
  term_complete t → defaultTerm d k t = t.
Proof.
  intros [[sel Hsel] Hkeys]. unfold defaultTerm.
  destruct t as [osel ns tk nsel keys mkeys]. simpl in *. subst osel.
  by rewrite decide_False.
Qed.

Lemma defaultConstraint_fixed_complete
    (d : LabelSelector) (x : string) (c : TopologySpreadConstraint) :
  defaultConstraint d (Some [x]) c = c → constraint_complete c.
Proof.
  unfold defaultConstraint, constraint_complete.
  destruct c as [ms tk wu [sel|] md nap ntp keys]; simpl;
    case_decide as Hlen; simpl in *; intros Heq; simplify_eq/=;
    try done; split; eauto.
Qed.

Lemma defaultTerm_fixed_complete
    (d : LabelSelector) (x : string) (t : PodAffinityTerm) :
  defaultTerm d (Some [x]) t = t → term_complete t.
Proof.
  unfold defaultTerm, term_complete.
  destruct t as [[sel|] ns tk nsel keys mkeys]; simpl;
    case_decide as Hlen; simpl in *; intros Heq; simplify_eq/=;
    try done; split; eauto.
Qed.

Lemma for_range_fixed {A : Type} (body : A → A) (s : slice A) :
  Forall (λ x, body x = x) (entries s) → for_range body s = s.
Proof.
  intros Hfix. rewrite for_range_fmap. destruct s as [l|]; [|done].
  simpl in Hfix. f_equal. induction Hfix as [|x l Hx _ IH]; [done|].
  by rewrite fmap_cons, Hx, IH.
Qed.

Lemma fmap_fixed_inv {A : Type} (f : A → A) (l : list A) :
  f <$> l = l → Forall (λ x, f x = x) l.
Proof.
  induction l as [|x l IH]; [constructor|].
  rewrite fmap_cons. intros [= Hx Hl]. constructor; auto.
Qed.

(** X3.  A spec is left exactly as it is by default-filling, whatever the
    defaults, if and only if every spread constraint and every affinity
    term in it has a label selector and a non-empty match-label-keys
    list. *)
Theorem applyDefaults_fixed_iff_complete (spec : TopologySpec) :
  (∀ d k, applyDefaults d k spec = spec) ↔ spec_complete spec.
Proof.
  split.
  - intros Hfix.
    pose (d0 := {| MatchLabels := []; MatchExpressions := [] |}).
    specialize (Hfix d0 (Some [""])). split.
    + apply (f_equal constraints_of) in Hfix.
      rewrite constraints_of_applyDefaults in Hfix.
      apply fmap_fixed_inv in Hfix. eapply Forall_impl; [exact Hfix|].
      intros c. apply defaultConstraint_fixed_complete.
    + apply (f_equal terms_of) in Hfix.
      rewrite terms_of_applyDefaults in Hfix.
      apply fmap_fixed_inv in Hfix. eapply Forall_impl; [exact Hfix|].
      intros t. apply defaultTerm_fixed_complete.
  - intros [Hcs Hts] d k.
    assert (∀ l, Forall term_complete l →
                 Forall (λ x, defaultTerm d k x = x) l) as Hterm.
    { intros l Hl. eapply Forall_impl; [exact Hl|].
      intros t. apply defaultTerm_complete. }
    assert (∀ l, Forall term_complete (PodAffinityTerm_of <$> l) →
                 Forall (λ x, defaultWeighted d k x = x) l) as Hweighted.
    { intros l Hl. rewrite Forall_fmap in Hl. eapply Forall_impl; [exact Hl|].
      intros [wt t] Ht. unfold defaultWeighted. simpl in *.
      by rewrite defaultTerm_complete. }
    destruct spec as [cs aff]. unfold applyDefaults. simpl. f_equal.
    + destruct cs as [s|]; [|done]. f_equal. apply for_range_fixed.
      unfold constraints_of in Hcs. simpl in Hcs.
      eapply Forall_impl; [|intros c; apply defaultConstraint_complete].
      by destruct s.
    + destruct aff as [[na pa paa]|]; [|done].
      unfold terms_of in Hts. simpl in Hts.
      apply Forall_app in Hts as [Hpa Hpaa].
      f_equal. unfold defaultAffinity. simpl. f_equal.
      * destruct pa as [[req pref]|]; [|done]. simpl in *.
        apply Forall_app in Hpa as [Hreq Hpref].
        f_equal. unfold defaultPodAffinity. simpl. f_equal.
        -- apply for_range_fixed. by apply Hterm.
        -- apply for_range_fixed. by apply Hweighted.
      * destruct paa as [[req pref]|]; [|done]. simpl in *.
        apply Forall_app in Hpaa as [Hreq Hpref].
        f_equal. unfold defaultPodAntiAffinity. simpl. f_equal.
        -- apply for_range_fixed. by apply Hterm.
        -- apply for_range_fixed. by apply Hweighted.
Qed.

(** ** What a successful attach hands back and leaves behind *)

(** A run that returned a nil error had a valid reference, met the stored
    object, and returns the copy with the defaults filled in, whose spec it
    hashed. *)
Lemma attach_success_inv
    (ObjectHash_fn : TopologySpec → string * option error)
    (h : Helper) (topologyRef : option TopologyRef) (finalizer : string)
    (d : LabelSelector) (k : slice string)
    (w w' : World) (topology : option loc) (hash : string) :
  EnsureTopologyRef ObjectHash_fn h topologyRef finalizer d k w =
    Some ((topology, hash, None), w') →
  ∃ r s p t,
    topologyRef = Some r ∧ valid_ref r ∧
    objects w !! (ref_Namespace r, ref_Name r) = Some s ∧
    topology = Some p ∧ heap w' !! p = Some t ∧
    Spec t = applyDefaults d k (st_Spec s) ∧
    ObjectHash_fn (Spec t) = (hash, None) ∧
    finalizer_token h finalizer ∈
      stored_finalizers (ref_Namespace r) (ref_Name r) w'.
Proof.
  destruct (ref_cases topologyRef) as [Hinv|(r & -> & Hvalid)].
  { rewrite EnsureTopologyRef_invalid by done. discriminate. }
  attach_paths w s e Hfetch Htoken Hverdict; try discriminate;
    intros [= <- Hhash Herr <-];
    destruct (fetch_result_found _ _ _ _ Hfetch) as [_ Hobj];
    eexists r, s, _, _; (split; [done|]); (split; [done|]);
    (split; [done|]); (split; [done|]);
    (split; [apply lookup_snoc2_last|]); (split; [done|]); split;
    try (cbn; destruct (ObjectHash_fn _); simpl in *; congruence).
  - unfold stored_finalizers. cbn. by rewrite Hobj.
  - unfold stored_finalizers. cbn. rewrite lookup_insert_eq. cbn.
    apply elem_of_app. right. by apply list_elem_of_singleton.
Qed.

Lemma defaultConstraint_selector
    (d : LabelSelector) (k : slice string) (c : TopologySpreadConstraint) :
  is_Some (tsc_LabelSelector (defaultConstraint d k c)) ∧
  (len k ≠ 0 → len (tsc_MatchLabelKeys (defaultConstraint d k c)) ≠ 0).
Proof.
  unfold defaultConstraint.
  destruct c as [ms tk wu [sel|] md nap ntp keys]; simpl;
    case_decide; simpl; split; eauto.
Qed.

Lemma defaultTerm_selector
    (d : LabelSelector) (k : slice string) (t : PodAffinityTerm) :
  is_Some (pat_LabelSelector (defaultTerm d k t)) ∧
  (len k ≠ 0 → len (pat_MatchLabelKeys (defaultTerm d k t)) ≠ 0).
Proof.
  unfold defaultTerm.
  destruct t as [[sel|] ns tk nsel keys mkeys]; simpl;
    case_decide; simpl; split; eauto.
Qed.

(** X2.  In the object a successful [EnsureTopologyRef] returns, every
    spread constraint and every affinity term has a label selector; and
    when the default list of keys is not empty, every one of them also has
    a non-empty match-label-keys list, so nothing is left to default. *)
Theorem returned_entries_have_selectors
    (ObjectHash_fn : TopologySpec → string * option error)
    (h : Helper) (topologyRef : option TopologyRef) (finalizer : string)
    (d : LabelSelector) (k : slice string)
    (w w' : World) (p : loc) (hash : string) (t : Topology) :
  EnsureTopologyRef ObjectHash_fn h topologyRef finalizer d k w =
    Some ((Some p, hash, None), w') →
  heap w' !! p = Some t →
  Forall (λ c, is_Some (tsc_LabelSelector c)) (constraints_of (Spec t)) ∧
  Forall (λ x, is_Some (pat_LabelSelector x)) (terms_of (Spec t)) ∧
  (len k ≠ 0 → spec_complete (Spec t)).
Proof.
  intros Hrun Ht.
  apply attach_success_inv in Hrun
    as (r & s & p' & t' & _ & _ & _ & [= <-] & Ht' & Hspec & _).
  rewrite Ht in Ht'. injection Ht' as <-. rewrite Hspec.
  unfold spec_complete.
  rewrite constraints_of_applyDefaults, terms_of_applyDefaults.
  split; [|split; [|intros Hk; split]];
    apply Forall_fmap, Forall_forall; intros x _; simpl.
  - apply defaultConstraint_selector.
  - apply defaultTerm_selector.
  - destruct (defaultConstraint_selector d k x) as [? Hkeys]. split; auto.
  - destruct (defaultTerm_selector d k x) as [? Hkeys]. split; auto.
Qed.

Lemma returned_entries_have_selectors_witness :
  Forall (λ c, is_Some (tsc_LabelSelector c))
    (constraints_of
       (applyDefaults Sample.defaultLabelSelector Sample.defaultMatchLabelKeys
          Sample.spec)) ∧
  Forall (λ x, is_Some (pat_LabelSelector x))
    (terms_of
       (applyDefaults Sample.defaultLabelSelector Sample.defaultMatchLabelKeys
          Sample.spec)) ∧
  (len Sample.defaultMatchLabelKeys ≠ 0 →
   spec_complete
     (applyDefaults Sample.defaultLabelSelector Sample.defaultMatchLabelKeys
        Sample.spec)).
Proof.
  apply (returned_entries_have_selectors Sample.digest Sample.h
           (Some Sample.ref) "myservice" Sample.defaultLabelSelector
           Sample.defaultMatchLabelKeys Sample.unattached Sample.after_attach
           1 "n5d8h66dh5c9h5f5h64bh5b7h5f8q"
           (set_Spec
              (applyDefaults Sample.defaultLabelSelector
                 Sample.defaultMatchLabelKeys Sample.spec)
              {| Name := "topo"; Namespace := "openstack";
                 Finalizers := ["svc-operator-myservice"];
                 Spec := Sample.spec |})).
  - vm_compute. reflexivity.
  - vm_compute. reflexivity.
Defined.

(** X9.  Whenever [EnsureTopologyRef] returns a nil error, the object the
    API server holds under the referenced name carries the token: success
    is never reported before the finalizer is in the store. *)
Theorem success_means_token_stored
    (ObjectHash_fn : TopologySpec → string * option error)
    (h : Helper) (r : TopologyRef) (finalizer : string)
    (d : LabelSelector) (k : slice string)
    (w w' : World) (topology : option loc) (hash : string) :
  EnsureTopologyRef ObjectHash_fn h (Some r) finalizer d k w =
    Some ((topology, hash, None), w') →
  finalizer_token h finalizer ∈
    stored_finalizers (ref_Namespace r) (ref_Name r) w'.
Proof.
  intros Hrun.
  apply attach_success_inv in Hrun
    as (r' & s & p & t & [= <-] & _ & _ & _ & _ & _ & _ & Hstored).
  exact Hstored.
Qed.

Lemma success_means_token_stored_witness :
  finalizer_token Sample.h "myservice" ∈
    stored_finalizers "openstack" "topo" Sample.after_attach.
Proof.
  apply (success_means_token_stored Sample.digest Sample.h Sample.ref
           "myservice" Sample.defaultLabelSelector Sample.defaultMatchLabelKeys
           Sample.unattached Sample.after_attach (Some 1)
           "n5d8h66dh5c9h5f5h64bh5b7h5f8q").
  vm_compute. reflexivity.
Defined.

(** X10.  The hash a successful [EnsureTopologyRef] returns depends on the
    stored spec and on the defaults only: two successful calls with the
    same defaults on targets whose stored specs are equal return the same
    hash, whatever the helper, the reference, the suffix, the finalizers
    already on the object and the rest of the two worlds. *)
Theorem hash_ignores_metadata
    (ObjectHash_fn : TopologySpec → string * option error)
    (h1 h2 : Helper) (r1 r2 : TopologyRef) (finalizer1 finalizer2 : string)
    (d : LabelSelector) (k : slice string)
    (w1 w1' w2 w2' : World) (topology1 topology2 : option loc)
    (hash1 hash2 : string) :
  EnsureTopologyRef ObjectHash_fn h1 (Some r1) finalizer1 d k w1 =
    Some ((topology1, hash1, None), w1') →
  EnsureTopologyRef ObjectHash_fn h2 (Some r2) finalizer2 d k w2 =
    Some ((topology2, hash2, None), w2') →
  st_Spec <$> objects w1 !! (ref_Namespace r1, ref_Name r1) =
    st_Spec <$> objects w2 !! (ref_Namespace r2, ref_Name r2) →
  hash1 = hash2.
Proof.
  intros Hrun1 Hrun2 Hspec.
  apply attach_success_inv in Hrun1
    as (? & s1 & ? & t1 & [= <-] & _ & Hobj1 & _ & _ & Ht1 & Hhash1 & _).
  apply attach_success_inv in Hrun2
    as (? & s2 & ? & t2 & [= <-] & _ & Hobj2 & _ & _ & Ht2 & Hhash2 & _).
  rewrite Hobj1, Hobj2 in Hspec. simpl in Hspec. injection Hspec as Hspec.
  rewrite Ht1, Hspec, <- Ht2, Hhash2 in Hhash1. congruence.
Qed.

Lemma hash_ignores_metadata_witness :
  ∃ topology1 topology2 hash w1' w2',
    EnsureTopologyRef Sample2.counting_digest Sample.h (Some Sample.ref)
      "myservice" Sample.defaultLabelSelector Sample.defaultMatchLabelKeys
      Sample.unattached = Some ((topology1, hash, None), w1') ∧
    EnsureTopologyRef Sample2.counting_digest Sample.h (Some Sample.ref)
      "myservice" Sample.defaultLabelSelector Sample.defaultMatchLabelKeys
      Sample2.shared_attached = Some ((topology2, hash, None), w2').
Proof.
  destruct (EnsureTopologyRef Sample2.counting_digest Sample.h (Some Sample.ref)
              "myservice" Sample.defaultLabelSelector
              Sample.defaultMatchLabelKeys Sample.unattached)
    as [[[[topology1 hash1] [e1|]] w1']|] eqn:Hrun1;
    try (vm_compute in Hrun1; discriminate Hrun1).
  destruct (EnsureTopologyRef Sample2.counting_digest Sample.h (Some Sample.ref)
              "myservice" Sample.defaultLabelSelector
              Sample.defaultMatchLabelKeys Sample2.shared_attached)
    as [[[[topology2 hash2] [e2|]] w2']|] eqn:Hrun2;
    try (vm_compute in Hrun2; discriminate Hrun2).
  exists topology1, topology2, hash1, w1', w2'. split; [reflexivity|].
  rewrite (hash_ignores_metadata _ _ _ _ _ _ _ _ _ _ _ _ _ _ _ _ _
             Hrun1 Hrun2); [reflexivity|].
  vm_compute. reflexivity.
Defined.

(** ** What the two functions do to the store *)

Lemma stored_eta (s : Stored) :
  {| st_Finalizers := st_Finalizers s; st_Spec := st_Spec s |} = s.
Proof. by destruct s. Qed.

(** X4.  Every execution of [EnsureTopologyRef] returns, and the store it
    leaves is either the one it found, or the one it found with the token
    appended to the finalizers of the referenced object, which did not have
    it: no other object changes, no finalizer of another consumer is
    dropped or moved, and the token is never stored twice by it. *)
Theorem attach_store_effect
    (ObjectHash_fn : TopologySpec → string * option error)
    (h : Helper) (topologyRef : option TopologyRef) (finalizer : string)
    (d : LabelSelector) (k : slice string) (w : World) :
  ∃ res w',
    EnsureTopologyRef ObjectHash_fn h topologyRef finalizer d k w =
      Some (res, w') ∧
    (objects w' = objects w ∨
     ∃ r s,
       topologyRef = Some r ∧
       objects w !! (ref_Namespace r, ref_Name r) = Some s ∧
       (finalizer_token h finalizer ∉ st_Finalizers s) ∧
       objects w' =
         <[(ref_Namespace r, ref_Name r) :=
             {| st_Finalizers := st_Finalizers s ++ [finalizer_token h finalizer];
                st_Spec := st_Spec s |}]> (objects w)).
Proof.
  destruct (ref_cases topologyRef) as [Hinv|(r & -> & Hvalid)].
  { rewrite EnsureTopologyRef_invalid by done. eexists _, _. eauto. }
  attach_paths w s e Hfetch Htoken Hverdict;
    (eexists _, _; split; [reflexivity|]); cbn; try (by left).
  right. destruct (fetch_result_found _ _ _ _ Hfetch) as [_ Hobj].
  by exists r, s.
Qed.



(** X6.  [EnsureDeletedTopologyRef] never reports a not-found error: on
    every execution the error it returns is nil or an error that
    [IsNotFound] rejects, whether the fetch or the update met it. *)
Theorem detach_never_not_found
    (h : Helper) (c : Client) (topologyRef : option TopologyRef)
    (finalizer : string) (w : World) :
  ∃ res w',
    EnsureDeletedTopologyRef h c topologyRef finalizer w = Some (res, w') ∧
    res.1 = Result_zero ∧ IsNotFound res.2 = false.
Proof.
  destruct (ref_cases topologyRef) as [Hinv|(r & -> & Hvalid)].
  { rewrite EnsureDeletedTopologyRef_invalid by done. eexists _, _. eauto. }
  rewrite EnsureDeletedTopologyRef_run by done. cbv zeta.
  destruct (fetch_result _ _ w) as [e|s] eqn:Hfetch;
    [destruct (IsNotFound (Some e)) eqn:Hnf
    |destruct (decide (_ ∈ st_Finalizers s)) as [Htoken|Htoken];
      [destruct (verdict 1 (faults w)) as [e|] eqn:Hverdict;
       [destruct (IsNotFound (Some e)) eqn:Hnf|]|]];
    eexists _, _; (split; [reflexivity|]); cbn; auto.
Qed.

Lemma detach_never_not_found_witness :
  ∃ res w',
    EnsureDeletedTopologyRef Sample.h ApiClient (Some Sample.ref) "myservice"
      Sample.vanishing = Some (res, w') ∧
    res.1 = Result_zero ∧ IsNotFound res.2 = false.
Proof.
  exact (detach_never_not_found Sample.h ApiClient (Some Sample.ref)
           "myservice" Sample.vanishing).
Defined.

Lemma append_inj_l (prefix a b : string) :
  prefix +:+ a = prefix +:+ b → a = b.
Proof.
  induction prefix as [|ch prefix IH]; simpl; [done|].
  intros [= Heq]. by apply IH.
Qed.

(** X11.  For one helper, different suffixes give different tokens: two
    consumers of the same operator that pass different suffixes never share
    a finalizer token. *)
Theorem finalizer_token_injective (h : Helper) (finalizer1 finalizer2 : string) :
  finalizer1 ≠ finalizer2 →
  finalizer_token h finalizer1 ≠ finalizer_token h finalizer2.
Proof.
  unfold finalizer_token. intros Hne Heq. apply Hne.
  apply append_inj_l in Heq. by apply (append_inj_l "-") in Heq.
Qed.

Lemma finalizer_token_injective_witness :
  finalizer_token Sample.h "myservice" ≠ finalizer_token Sample.h "otherservice".
Proof.
  apply (finalizer_token_injective Sample.h "myservice" "otherservice").
  discriminate.
Defined.

(** ** Calls in sequence, when the environment lets them through *)

Lemma calm_tail (w w' : World) :
  calm w → faults w' = tail (faults w) ∨ faults w' = tail (tail (faults w)) →
  calm w'.
Proof.
  intros Hcalm [Hf|Hf] n; rewrite Hf, ?verdict_tail; apply Hcalm.
Qed.


(** An attach the environment lets through, on a stored object. *)
Lemma attach_calm
    (ObjectHash_fn : TopologySpec → string * option error)
    (h : Helper) (r : TopologyRef) (finalizer : string)
    (d : LabelSelector) (k : slice string) (w : World) (s : Stored) :
  valid_ref r → calm w →
  objects w !! (ref_Namespace r, ref_Name r) = Some s →
  ∃ res w',
    EnsureTopologyRef ObjectHash_fn h (Some r) finalizer d k w =
      Some (res, w') ∧
    calm w' ∧
    res.2 = (ObjectHash_fn (applyDefaults d k (st_Spec s))).2 ∧
    objects w' =
      if decide (finalizer_token h finalizer ∈ st_Finalizers s)
      then objects w
      else <[(ref_Namespace r, ref_Name r) :=
               {| st_Finalizers := st_Finalizers s ++ [finalizer_token h finalizer];
                  st_Spec := st_Spec s |}]> (objects w).
Proof.
  intros Hvalid Hcalm Hobj.
  rewrite EnsureTopologyRef_run by done. cbv zeta.
  rewrite (fetch_result_intro _ _ _ s) by (done || apply Hcalm).
  destruct (decide (_ ∈ st_Finalizers s)) as [Htoken|Htoken].
  - eexists _, _. split; [reflexivity|]. cbn.
    split; [|done]. eapply calm_tail; [exact Hcalm|]. by left.
  - rewrite (Hcalm 1). eexists _, _. split; [reflexivity|]. cbn.
    split; [|done]. eapply calm_tail; [exact Hcalm|]. by right.
Qed.

(** A detach the environment lets through. *)
Lemma detach_calm
    (h : Helper) (c : Client) (r : TopologyRef) (finalizer : string)
    (w : World) :
  valid_ref r → calm w →
  ∃ w',
    EnsureDeletedTopologyRef h c (Some r) finalizer w =
      Some ((Result_zero, None), w') ∧
    calm w' ∧
    match objects w !! (ref_Namespace r, ref_Name r) with
    | None =>
        objects w' = objects w ∧ updates (events_of w w') = []
    | Some s =>
        if decide (finalizer_token h finalizer ∈ st_Finalizers s)
        then
          objects w' =
            <[(ref_Namespace r, ref_Name r) :=
                {| st_Finalizers :=
                     filter (λ e, e ≠ finalizer_token h finalizer)
                       (st_Finalizers s);
                   st_Spec := st_Spec s |}]> (objects w)
        else objects w' = objects w ∧ updates (events_of w w') = []
    end.
Proof.
  intros Hvalid Hcalm.
  rewrite EnsureDeletedTopologyRef_run by done. cbv zeta.
  unfold fetch_result. rewrite (Hcalm 0).
  destruct (objects w !! (ref_Namespace r, ref_Name r)) as [s|] eqn:Hobj.
  - destruct (decide (_ ∈ st_Finalizers s)) as [Htoken|Htoken].
    + rewrite (Hcalm 1). eexists. split; [reflexivity|]. cbn.
      split; [|done]. eapply calm_tail; [exact Hcalm|]. by right.
    + eexists. split; [reflexivity|]. cbn.
      erewrite events_of_app by trace_shape.
      split; [|done]. eapply calm_tail; [exact Hcalm|]. by left.
  - eexists. split; [reflexivity|]. cbn.
    erewrite events_of_app by trace_shape.
    split; [|done]. eapply calm_tail; [exact Hcalm|]. by left.
Qed.

Lemma filter_token_snoc (token : string) (l : list string) :
  token ∉ l → filter (λ e, e ≠ token) (l ++ [token]) = l.
Proof.
  intros Hnin. rewrite filter_app, filter_absent by done.
  rewrite filter_cons_False by (intros Hne; by apply Hne).
  by rewrite filter_nil, app_nil_r.
Qed.

(** X7.  Attach followed by detach is a round trip on the store: when the
    environment lets the calls through and the referenced object did not
    carry the token, [EnsureDeletedTopologyRef] after [EnsureTopologyRef]
    returns a nil error and leaves the store exactly as it was before the
    attach, whether or not the attach's hash succeeded. *)
Theorem attach_detach_round_trip
    (ObjectHash_fn : TopologySpec → string * option error)
    (h : Helper) (c : Client) (r : TopologyRef) (finalizer : string)
    (d : LabelSelector) (k : slice string) (w : World) (s : Stored) :
  valid_ref r → calm w →
  objects w !! (ref_Namespace r, ref_Name r) = Some s →
  finalizer_token h finalizer ∉ st_Finalizers s →
  ∃ res w1 w2,
    EnsureTopologyRef ObjectHash_fn h (Some r) finalizer d k w =
      Some (res, w1) ∧
    finalizer_token h finalizer ∈
      stored_finalizers (ref_Namespace r) (ref_Name r) w1 ∧
    EnsureDeletedTopologyRef h c (Some r) finalizer w1 =
      Some ((Result_zero, None), w2) ∧
    objects w2 = objects w.
Proof.
  intros Hvalid Hcalm Hobj Htoken.
  destruct (attach_calm ObjectHash_fn h r finalizer d k w s Hvalid Hcalm Hobj)
    as (res & w1 & Hrun1 & Hcalm1 & _ & Hobjs1).
  rewrite decide_False in Hobjs1 by done.
  destruct (detach_calm h c r finalizer w1 Hvalid Hcalm1)
    as (w2 & Hrun2 & _ & Hobjs2).
  exists res, w1, w2. split; [done|].
  rewrite Hobjs1, lookup_insert_eq in Hobjs2. cbn in Hobjs2.
  assert (finalizer_token h finalizer ∈
            st_Finalizers s ++ [finalizer_token h finalizer]) as Hin.
  { apply elem_of_app. right. by apply list_elem_of_singleton. }
  rewrite decide_True in Hobjs2 by done.
  split; [|split; [done|]].
  - unfold stored_finalizers. rewrite Hobjs1, lookup_insert_eq. done.
  - rewrite Hobjs2, insert_insert_eq, filter_token_snoc by done.
    rewrite stored_eta. by apply insert_id.
Qed.

Lemma attach_detach_round_trip_witness :
  ∃ res w1 w2,
    EnsureTopologyRef Sample.failing_digest Sample.h (Some Sample.ref)
      "myservice" Sample.defaultLabelSelector Sample.defaultMatchLabelKeys
      Sample2.shared = Some (res, w1) ∧
    finalizer_token Sample.h "myservice" ∈
      stored_finalizers "openstack" "topo" w1 ∧
    EnsureDeletedTopologyRef Sample.h ApiClient (Some Sample.ref) "myservice"
      w1 = Some ((Result_zero, None), w2) ∧
    objects w2 = objects Sample2.shared.
Proof.
  apply (attach_detach_round_trip Sample.failing_digest Sample.h ApiClient
           Sample.ref "myservice" Sample.defaultLabelSelector
           Sample.defaultMatchLabelKeys Sample2.shared
           {| st_Finalizers := ["svc-operator-otherservice"];
              st_Spec := Sample.spec |}).
  - split; discriminate.
  - intros n. destruct n; reflexivity.
  - vm_compute. reflexivity.
  - intros Hin. apply list_elem_of_singleton in Hin. discriminate Hin.
Defined.

(** X8.  Detaching is idempotent: when the environment lets the calls
    through, a first [EnsureDeletedTopologyRef] returns a nil error
    (whether the object is missing, lacks the token, or has it removed),
    and a second one returns a nil error again, issues no update and
    leaves the store as the first one left it. *)
Theorem detach_twice
    (h : Helper) (c : Client) (r : TopologyRef) (finalizer : string)
    (w : World) :
  valid_ref r → calm w →
  ∃ w1 w2,
    EnsureDeletedTopologyRef h c (Some r) finalizer w =
      Some ((Result_zero, None), w1) ∧
    EnsureDeletedTopologyRef h c (Some r) finalizer w1 =
      Some ((Result_zero, None), w2) ∧
    updates (events_of w1 w2) = [] ∧
    objects w2 = objects w1.
Proof.
  intros Hvalid Hcalm.
  destruct (detach_calm h c r finalizer w Hvalid Hcalm)
    as (w1 & Hrun1 & Hcalm1 & Hobjs1).
  destruct (detach_calm h c r finalizer w1 Hvalid Hcalm1)
    as (w2 & Hrun2 & _ & Hobjs2).
  exists w1, w2. split; [done|]. split; [done|].
  destruct (objects w !! (ref_Namespace r, ref_Name r)) as [s|] eqn:Hobj.
  - destruct (decide (_ ∈ st_Finalizers s)) as [Htoken|Htoken].
    + assert (objects w1 !! (ref_Namespace r, ref_Name r) =
                Some {| st_Finalizers :=
                          filter (λ e, e ≠ finalizer_token h finalizer)
                            (st_Finalizers s);
                        st_Spec := st_Spec s |}) as Hobj1.
      { rewrite Hobjs1. apply lookup_insert_eq. }
      rewrite Hobj1 in Hobjs2. cbn in Hobjs2.
      rewrite decide_False in Hobjs2; [tauto|].
      intros Hin. apply list_elem_of_filter in Hin as [Hne _]. by apply Hne.
    + destruct Hobjs1 as [Hobjs1 _].
      assert (objects w1 !! (ref_Namespace r, ref_Name r) = Some s) as Hobj1
        by (by rewrite Hobjs1).
      rewrite Hobj1 in Hobjs2.
      rewrite decide_False in Hobjs2 by done. tauto.
  - destruct Hobjs1 as [Hobjs1 _].
    assert (objects w1 !! (ref_Namespace r, ref_Name r) = None) as Hobj1
      by (by rewrite Hobjs1).
    rewrite Hobj1 in Hobjs2. tauto.
Qed.

Lemma detach_twice_witness :
  ∃ w1 w2,
    EnsureDeletedTopologyRef Sample.h ApiClient (Some Sample.ref) "myservice"
      Sample2.shared_attached = Some ((Result_zero, None), w1) ∧
    EnsureDeletedTopologyRef Sample.h ApiClient (Some Sample.ref) "myservice"
      w1 = Some ((Result_zero, None), w2) ∧
    updates (events_of w1 w2) = [] ∧
    objects w2 = objects w1.
Proof.
  apply (detach_twice Sample.h ApiClient Sample.ref "myservice"
           Sample2.shared_attached).
  - split; discriminate.
  - intros n. destruct n; reflexivity.
Defined.



(** ** The earlier variant against the current one *)

(** The whole run of the earlier [EnsureTopologyRef] on a valid reference. *)
Lemma Earlier_EnsureTopologyRef_run
    (fetch_hash : error + Stored → string)
    (h : Helper) (r : TopologyRef) (finalizer : string) (w : World) :
  valid_ref r →
  Earlier.EnsureTopologyRef fetch_hash h (Some r) finalizer w =
  let p := length (heap w) in
  let tr := trace w ++ [EvGet (ref_Namespace r) (ref_Name r)] in
  let hash := fetch_hash (fetch_result (ref_Namespace r) (ref_Name r) w) in
  match fetch_result (ref_Namespace r) (ref_Name r) w with
  | inl e =>
      Some ((Some p, hash, Some e),
            {| objects := objects w; faults := tail (faults w);
               heap := heap w ++ [Topology_zero]; trace := tr |})
  | inr s =>
      let o := to_object (ref_Namespace r) (ref_Name r) s in
      if decide (finalizer_token h finalizer ∈ st_Finalizers s)
      then
        Some ((Some p, hash, None),
              {| objects := objects w; faults := tail (faults w);
                 heap := heap w ++ [o]; trace := tr |})
      else
        let o' :=
          set_Finalizers (st_Finalizers s ++ [finalizer_token h finalizer]) o in
        match verdict 1 (faults w) with
        | Some e =>
            Some ((Some p, hash, Some e),
                  {| objects := objects w; faults := tail (tail (faults w));
                     heap := heap w ++ [o']; trace := tr ++ [EvUpdate o'] |})
        | None =>
            Some ((Some p, hash, None),
                  {| objects :=
                       <[(ref_Namespace r, ref_Name r) := to_stored o']> (objects w);
                     faults := tail (tail (faults w));
                     heap := heap w ++ [o']; trace := tr ++ [EvUpdate o'] |})
        end
  end.
Proof.
  intros [Hname Hns]. unfold Earlier.EnsureTopologyRef.
  rewrite decide_False by (intros [?|?]; done).
  unfold bind at 1. unfold Earlier.GetTopologyByName.
  rewrite GetTopologyByName_run.
  destruct (fetch_result _ _ w) as [e|s] eqn:Hfetch; cbn; [done|].
  unfold AddFinalizer, Update, bind, load, store, log, next_fault,
    lookup_object, put_object, ret.
  run_memory.
  destruct (decide (_ ∈ st_Finalizers s)) as [Hin|Hnin]; run_memory; [done|].
  rewrite verdict_tail.
  destruct (verdict 1 (faults w)) as [e|]; run_memory; [done|].
  destruct (fetch_result_found _ _ _ _ Hfetch) as [_ ->]. run_memory. done.
Qed.

(** X12.  The earlier variant of [EnsureTopologyRef] and the current one
    treat the store alike: on every input both return, after the same
    store calls, with the same store and the same remaining script.  When
    the earlier one fails, the current one fails with the same error and
    hands back the same address.  When the earlier one succeeds it returns
    the fetched object itself, and the current one returns a copy of it
    with the same name, namespace and finalizers and the defaults filled
    into its spec, failing only if the hash of that spec fails. *)
Theorem earlier_variant_same_store
    (ObjectHash_fn : TopologySpec → string * option error)
    (fetch_hash : error + Stored → string)
    (h : Helper) (topologyRef : option TopologyRef) (finalizer : string)
    (d : LabelSelector) (k : slice string) (w : World) :
  ∃ res0 w0 res w',
    Earlier.EnsureTopologyRef fetch_hash h topologyRef finalizer w =
      Some (res0, w0) ∧
    EnsureTopologyRef ObjectHash_fn h topologyRef finalizer d k w =
      Some (res, w') ∧
    objects w0 = objects w' ∧
    faults w0 = faults w' ∧
    store_calls (events_of w w0) = store_calls (events_of w w') ∧
    (∀ e, res0.2 = Some e → res.2 = Some e ∧ res.1.1 = res0.1.1) ∧
    (res0.2 = None →
       ∃ p0 t0 p t,
         res0.1.1 = Some p0 ∧ heap w0 !! p0 = Some t0 ∧
         res.1.1 = Some p ∧ heap w' !! p = Some t ∧
         heap w' !! p0 = Some t0 ∧
         Name t = Name t0 ∧ Namespace t = Namespace t0 ∧
         Finalizers t = Finalizers t0 ∧
         Spec t = applyDefaults d k (Spec t0) ∧
         res.2 = (ObjectHash_fn (Spec t)).2).
Proof.
  destruct (ref_cases topologyRef) as [Hinv|(r & -> & Hvalid)].
  { rewrite EnsureTopologyRef_invalid by done.
    unfold Earlier.EnsureTopologyRef.
    destruct topologyRef as [r|]; [rewrite decide_True by done|];
      (eexists _, _, _, _; split; [reflexivity|]; split; [reflexivity|]);
      cbn; (split; [done|]); (split; [done|]); (split; [done|]);
      (split; [|discriminate]); by intros e [= <-]. }
  rewrite Earlier_EnsureTopologyRef_run by done.
  attach_paths w s e Hfetch Htoken Hverdict;
    (eexists _, _, _, _; split; [reflexivity|]; split; [reflexivity|]);
    (split; [done|]); (split; [done|]);
    erewrite !events_of_app by trace_shape;
    (split; [done|]); cbn.
  - split; [|discriminate]. by intros e' [= <-].
  - split; [discriminate|]. intros _.
    eexists _, _, _, _. split; [reflexivity|].
    split; [apply lookup_snoc|]. split; [reflexivity|].
    split; [apply lookup_snoc2_last|].
    split; [apply lookup_snoc2_first|]. done.
  - split; [|discriminate]. by intros e' [= <-].
  - split; [discriminate|]. intros _.
    eexists _, _, _, _. split; [reflexivity|].
    split; [apply lookup_snoc|]. split; [reflexivity|].
    split; [apply lookup_snoc2_last|].
    split; [apply lookup_snoc2_first|]. done.
Qed.

Example earlier_attach_first_time :
  Sample.summary Sample.unattached
    (Earlier.EnsureTopologyRef Sample2.fetch_hash Sample.h (Some Sample.ref)
       "myservice" Sample.unattached) =
  Some ((Some 0, "n5d8h66dh5c9h5f5h64bh5b7h5f8q", None),
        ["Get"; "Update"], ["svc-operator-myservice"]).
Proof. vm_compute. reflexivity. Qed.

Example earlier_attach_missing :
  Sample.summary Sample.empty
    (Earlier.EnsureTopologyRef Sample2.fetch_hash Sample.h (Some Sample.ref)
       "myservice" Sample.empty) =
  Some ((Some 0, "", Some (StatusError StatusReasonNotFound "topo")),
        ["Get"], []).
Proof. vm_compute. reflexivity. Qed.
